(** * Brian2 paper examples: the bisection experiment and the pyloric circuit

    A shallow embedding of the two notebooks of the repository.

    - [Brian] models the part of the simulator interface the notebooks call:
      a group of unconnected neurons, a spike monitor, [store]/[restore],
      assignment of a state variable and [run].  The numerical integration
      itself belongs to the simulator and is a parameter of the model.
    - [Bisection] is the threshold search of [example_3_bisection.ipynb].
    - [Pyloric] is the three-neuron circuit of the second notebook.

    Physical quantities are rationals in a fixed unit (voltages in mV,
    durations in ms, channel densities in mS/cm^2); numpy's float64
    arithmetic is idealised to exact rational arithmetic.  Where a
    statement turns on rounding, it is made on [Float64], which repeats the
    arithmetic of the bisection loop in binary64. *)

From Stdlib Require Import String QArith Qpower Qabs Lqa Lia.
From Stdlib Require PrimFloat.
From stdpp Require Import base option list.

(** ** The simulator interface *)

Module Brian.
Local Open Scope Q_scope.
Section Network.

(** The gating variables [m], [n], [h] of one segment.  Their resting
    values come from exponentials and are left abstract. *)
Variable G : Type.

(** One axon segment of [NeuronGroup(100, eqs, ...)]: the parameter [gNa]
    and the state variables [v] and ([m], [n], [h]). *)
Record neuron : Type := Neuron { gNa : Q; v : Q; gates : G }.

(** [integrate d x]: the state of a segment after the simulator advanced it
    by [d] ms from state [x], and how often it crossed the threshold
    [v > 50 mV] on the way.  The group has no synapses and the equations
    have no noise term, so a segment's trajectory is a function of its own
    state only. *)
Variable integrate : Q -> neuron -> neuron * nat.

(** What [store()] saves: every state variable, the monitor's counters and
    the clock. *)
Record snapshot : Type :=
  Snapshot { s_neurons : list neuron; s_count : list nat; s_t : Q }.

Record network : Type :=
  Network { neurons : list neuron;  (* axon *)
            count : list nat;       (* S.count *)
            t : Q;                  (* the clock, in ms *)
            stored : option snapshot }.

(** [S = SpikeMonitor(axon)] on a fresh group. *)
Definition SpikeMonitor (axon : list neuron) : network :=
  Network axon (replicate (length axon) 0%nat) 0 None.

(** [store()] *)
Definition store (n : network) : network :=
  Network (neurons n) (count n) (t n)
          (Some (Snapshot (neurons n) (count n) (t n))).

(** [restore()]: fails when nothing was stored. *)
Definition restore (n : network) : option network :=
  s ← stored n;
  Some (Network (s_neurons s) (s_count s) (s_t s) (stored n)).

Definition with_v (x : neuron) (u : Q) : neuron :=
  Neuron (gNa x) u (gates x).

(** [axon.v = vals] for an array [vals]: the sizes have to agree. *)
Definition set_v (n : network) (vals : list Q) : option network :=
  if (length vals =? length (neurons n))%nat
  then Some (Network (zip_with with_v (neurons n) vals)
                     (count n) (t n) (stored n))
  else None.

(** [run(d)] *)
Definition run (d : Q) (n : network) : network :=
  let r := map (integrate d) (neurons n) in
  Network (map fst r) (zip_with Nat.add (count n) (map snd r))
          (t n + d) (stored n).

End Network.

Arguments Neuron {G}.
Arguments gNa {G}.
Arguments v {G}.
Arguments gates {G}.
Arguments Snapshot {G}.
Arguments s_neurons {G}.
Arguments s_count {G}.
Arguments s_t {G}.
Arguments Network {G}.
Arguments neurons {G}.
Arguments count {G}.
Arguments t {G}.
Arguments stored {G}.
Arguments SpikeMonitor {G}.
Arguments store {G}.
Arguments restore {G}.
Arguments with_v {G}.
Arguments set_v {G}.
Arguments run {G}.

End Brian.

(** ** Example 3: bisection search for the spiking threshold *)

Module Bisection.
Import Brian.
Local Open Scope Q_scope.

(** [gNa_max = 100*msiemens/cm**2], [gNa_min = 15*msiemens/cm**2] *)
Definition gNa_max : Q := 100.
Definition gNa_min : Q := 15.

(** ['gNa_min + (gNa_max - gNa_min)*1.0*i/N'] *)
Definition gNa_expr (N i : nat) : Q :=
  gNa_min + (gNa_max - gNa_min) * 1 * inject_Z (Z.of_nat i) / inject_Z (Z.of_nat N).

(** Events of interest, in execution order. *)
Inductive event : Type :=
  | EStore
  | ERestore
  | ESetV (vals : list Q)
  | ERun (d : Q)
  | EReadCount
  | EAssignRow (i : nat).

(** [S.count > 0] and [S.count == 0] *)
Definition count_gt0 (c : list nat) : list bool := map (fun k => (0 <? k)%nat) c.
Definition count_eq0 (c : list nat) : list bool := map (fun k => (k =? 0)%nat) c.

(** [a[mask] -= d] and [a[mask] += d]: a boolean mask has to have the size
    of the array it indexes. *)
Definition masked_sub (a : list Q) (mask : list bool) (d : Q) : option (list Q) :=
  if (length mask =? length a)%nat
  then Some (zip_with (fun x (b : bool) => if b then x - d else x) a mask)
  else None.

Definition masked_add (a : list Q) (mask : list bool) (d : Q) : option (list Q) :=
  if (length mask =? length a)%nat
  then Some (zip_with (fun x (b : bool) => if b then x + d else x) a mask)
  else None.

(** [e[i, :] = r]: the row has to exist and [r] has to fill it.  [None] is
    an entry that still holds [np.nan]. *)
Definition set_row (e : list (list (option Q))) (i : nat) (r : list Q)
  : option (list (list (option Q))) :=
  row ← e !! i;
  if (length r =? length row)%nat then Some (<[i := Some <$> r]> e) else None.

Section Experiment.

Variable G : Type.
Variable integrate : Q -> neuron G -> neuron G * nat.

(** The resting values of the gates, [1/(1 + beta/alpha)] at [v = 0]. *)
Variable rest : G.

(** The variables of the notebook, and the trace of what was executed. *)
Record state : Type :=
  State { net : network G;
          v0 : list Q;
          step : Q;
          estimates : list (list (option Q));
          log : list event }.

(** The cells up to [S = SpikeMonitor(axon)]: a group whose segments have
    the given channel densities, at rest. *)
Definition group (gs : list Q) : list (neuron G) :=
  map (fun g => Neuron g 0 rest) gs.

(** [axon = NeuronGroup(100, ...)] with its [gNa] assignment. *)
Definition axon : list (neuron G) := group (map (gNa_expr 100) (seq 0 100)).

(** The cells from [store()] to the first assignment to [estimates],
    started with the estimates [v] and the correction [s]. *)
Definition init (a : list (neuron G)) (v : list Q) (s : Q) : option state :=
  let n := store (SpikeMonitor a) in
  let e := replicate 11 (replicate (length a) (@None Q)) in
  e' ← set_row e 0 v;
  Some (State n v s e' [EStore; EAssignRow 0]).

(** The body of [for i in range(10)]. *)
Definition iteration (i : nat) (st : state) : option state :=
  n1 ← restore (net st);
  n2 ← set_v n1 (v0 st);
  let n3 := run integrate 20 n2 in
  v1 ← masked_sub (v0 st) (count_gt0 (count n3)) (step st);
  v2 ← masked_add v1 (count_eq0 (count n3)) (step st);
  let s' := step st / 2 in
  e' ← set_row (estimates st) (i + 1)%nat v2;
  Some (State n3 v2 s' e'
          (log st ++ [ERestore; ESetV (v0 st); ERun 20; EReadCount;
                      EReadCount; EAssignRow (i + 1)%nat])).

(** [for i in r: body] *)
Fixpoint for_each (r : list nat) (st : state) : option state :=
  match r with
  | [] => Some st
  | i :: r' => st' ← iteration i st; for_each r' st'
  end.

(** The search on an arbitrary group, after the first [k] iterations. *)
Definition search (a : list (neuron G)) (v : list Q) (s : Q) (k : nat)
  : option state :=
  st ← init a v s; for_each (seq 0 k) st.

(** [25*mV*ones(len(axon))] *)
Definition ones25 (a : list (neuron G)) : list Q := replicate (length a) 25.

(** The notebook: [v0 = 25*mV*ones(len(axon))], [step = 25*mV]. *)
Definition after (k : nat) : option state := search axon (ones25 axon) 25 k.

(** The notebook after its last cell of computation. *)
Definition notebook : option state := after 10.

(** *** One segment followed on its own

    What the loop does to the entry of a single segment, written as a
    recursion on the number of iterations.  The theorems relate the
    vectorised loop to it. *)

(** The correction of one entry by the two masked updates: [k] is the
    segment's spike count. *)
Definition update (s x : Q) (k : nat) : Q :=
  if (0 <? k)%nat then x - s else x + s.

(** The spike count of segment [n] in a 20 ms run started with [v = x]. *)
Definition spikes_of (n : neuron G) (x : Q) : nat :=
  snd (integrate 20 (with_v n x)).

Fixpoint step_at (s : Q) (k : nat) : Q :=
  match k with
  | O => s
  | S k' => step_at s k' / 2
  end.

Fixpoint est_at (n : neuron G) (x s : Q) (k : nat) : Q :=
  match k with
  | O => x
  | S k' => let e := est_at n x s k' in
            update (step_at s k') e (spikes_of n e)
  end.

(** The whole vector of estimates and of spike counts. *)
Definition ests (a : list (neuron G)) (v : list Q) (s : Q) (k : nat) : list Q :=
  zip_with (fun n x => est_at n x s k) a v.

Definition spikes (a : list (neuron G)) (vals : list Q) : list nat :=
  zip_with spikes_of a vals.

(** The network every iteration's simulation starts from: the stored
    state with the membrane potentials overwritten by [vals]. *)
Definition snap0 (a : list (neuron G)) : snapshot G :=
  Snapshot a (replicate (length a) 0%nat) 0.

Definition restored (a : list (neuron G)) : network G :=
  Network a (replicate (length a) 0%nat) 0 (Some (snap0 a)).

Definition primed (a : list (neuron G)) (vals : list Q) : network G :=
  Network (zip_with with_v a vals) (replicate (length a) 0%nat) 0
          (Some (snap0 a)).

(** The events of iteration [i] when it starts with estimates [vals]. *)
Definition events_of (i : nat) (vals : list Q) : list event :=
  [ERestore; ESetV vals; ERun 20; EReadCount; EReadCount;
   EAssignRow (i + 1)%nat].

(** The trace, the table of estimates and the network after [k]
    iterations. *)
Fixpoint trace (a : list (neuron G)) (v : list Q) (s : Q) (k : nat) : list event :=
  match k with
  | O => [EStore; EAssignRow 0]
  | S k' => trace a v s k' ++ events_of k' (ests a v s k')
  end.

Fixpoint table (a : list (neuron G)) (v : list Q) (s : Q) (k : nat)
  : list (list (option Q)) :=
  match k with
  | O => <[0%nat := Some <$> v]> (replicate 11 (replicate (length a) None))
  | S k' => <[(k' + 1)%nat := Some <$> ests a v s (S k')]> (table a v s k')
  end.

Definition net_at (a : list (neuron G)) (v : list Q) (s : Q) (k : nat) : network G :=
  match k with
  | O => store (SpikeMonitor a)
  | S k' => run integrate 20 (primed a (ests a v s k'))
  end.

Definition state_at (a : list (neuron G)) (v : list Q) (s : Q) (k : nat) : state :=
  State (net_at a v s k) (ests a v s k) (step_at s k) (table a v s k)
        (trace a v s k).

(** Shape of the notebook's variables between iterations. *)
Record wf (a : list (neuron G)) (st : state) : Prop :=
  Wf { wf_stored : stored (net st) = Some (snap0 a);
       wf_v0 : length (v0 st) = length a;
       wf_rows : length (estimates st) = 11%nat;
       wf_cols : Forall (fun r => length r = length a) (estimates st) }.

End Experiment.

Arguments State {G}.
Arguments net {G}.
Arguments v0 {G}.
Arguments step {G}.
Arguments estimates {G}.
Arguments log {G}.
Arguments group {G}.
Arguments axon {G}.
Arguments init {G}.
Arguments iteration {G}.
Arguments for_each {G}.
Arguments search {G}.
Arguments after {G}.
Arguments notebook {G}.
Arguments spikes_of {G}.
Arguments est_at {G}.
Arguments ones25 {G}.
Arguments ests {G}.
Arguments spikes {G}.
Arguments snap0 {G}.
Arguments restored {G}.
Arguments primed {G}.
Arguments trace {G}.
Arguments table {G}.
Arguments net_at {G}.
Arguments state_at {G}.
Arguments wf {G}.

(** *** An idealised segment

    A segment with a sharp threshold [th]: it fires once when started
    strictly above [th] and not at all otherwise.  Used to run the
    notebook on concrete numbers. *)
Definition sharp (th : Q) (d : Q) (x : neuron unit) : neuron unit * nat :=
  (x, if Qle_bool (v x) th then 0%nat else 1%nat).

(** The row indices of [estimates] that a trace assigns, in order, and the
    number of simulations it runs. *)
Definition rows_assigned (l : list event) : list nat :=
  omap (fun e => match e with EAssignRow i => Some i | _ => None end) l.

Definition runs (l : list event) : nat :=
  length (omap (fun e => match e with ERun d => Some d | _ => None end) l).

Definition stores (l : list event) : nat :=
  length (omap (fun e => match e with EStore => Some tt | _ => None end) l).

(** The entry of segment [j] in [v0] after [k] iterations. *)
Definition estimate {G} (integrate : Q -> neuron G -> neuron G * nat)
    (rest : G) (k j : nat) : option Q :=
  st ← after integrate rest k; v0 st !! j.

(** A segment [n] has the spiking threshold [vs] when a 20 ms run started
    at [v = x] produces a spike exactly for [x > vs]. *)
Definition threshold {G} (integrate : Q -> neuron G -> neuron G * nat)
    (n : neuron G) (vs : Q) : Prop :=
  forall x : Q, (0 < spikes_of integrate n x)%nat <-> vs < x.




(** *** What else the notebook does with the network and the table *)

(** The calls that change the network between [store()] and a later
    [restore()]. *)
Inductive op : Type :=
  | OpRestore
  | OpSetV (vals : list Q)
  | OpRun (d : Q).

Definition apply_op {G} (integrate : Q -> neuron G -> neuron G * nat)
    (o : op) (n : network G) : option (network G) :=
  match o with
  | OpRestore => restore n
  | OpSetV vals => set_v n vals
  | OpRun d => Some (run integrate d n)
  end.

Fixpoint apply_ops {G} (integrate : Q -> neuron G -> neuron G * nat)
    (l : list op) (n : network G) : option (network G) :=
  match l with
  | [] => Some n
  | o :: l' => n' ← apply_op integrate o n; apply_ops integrate l' n'
  end.

(** A segment whose sharp threshold falls with its channel density: it
    is [45 - gNa/4] mV. *)
Definition graded (d : Q) (x : neuron unit) : neuron unit * nat :=
  (x, if Qle_bool (v x) (45 - gNa x * (1 # 4)) then 0%nat else 1%nat).

(** A segment like [sharp] that fires a burst of three spikes above its
    threshold. *)
Definition burst (th : Q) (d : Q) (x : neuron unit) : neuron unit * nat :=
  (with_v x (v x + d), if Qle_bool (v x) th then 0%nat else 3%nat).

(** [estimates[:, j]], the trace plotted for an example segment, and
    [estimates[-1, j]], its marker in the lower panel. *)
Definition column (e : list (list (option Q))) (j : nat)
  : option (list (option Q)) :=
  mapM (fun row : list (option Q) => row !! j) e.

Definition last_entry (e : list (list (option Q))) (j : nat)
  : option (option Q) :=
  row ← last e; row !! j.

End Bisection.

(** ** The arithmetic of the bisection loop in binary64

    The estimates and the step are arrays of binary64 numbers, in volt.
    This module repeats the loop with the machine's subtraction, addition
    and division.  What [restore()], [axon.v = v0], [run(20*ms)] and the
    monitor contribute is the spike count of every segment, a function of
    the segment and of the potential it was started with. *)

Module Float64.
Import PrimFloat.
Local Open Scope float_scope.

(** The value of [mV]: the binary64 number nearest to 0.001. *)
Definition mV : float := 0x1.0624dd2f1a9fcp-10.

(** An entry of [25*mV*ones(len(axon))], and [25*mV]. *)
Definition v0_init : float := 25 * mV * 1.
Definition step_init : float := 25 * mV.

(** [a[mask] -= d] and [a[mask] += d] *)
Definition masked_sub (a : list float) (mask : list bool) (d : float)
  : option (list float) :=
  if (length mask =? length a)%nat
  then Some (zip_with (fun x (b : bool) => if b then x - d else x) a mask)
  else None.

Definition masked_add (a : list float) (mask : list bool) (d : float)
  : option (list float) :=
  if (length mask =? length a)%nat
  then Some (zip_with (fun x (b : bool) => if b then x + d else x) a mask)
  else None.

Section Loop.

(** [spike j x]: [S.count[j]] after a run in which segment [j] was started
    with [v = x]. *)
Variable spike : nat -> float -> nat.

(** [S.count] after the run started from [v0]. *)
Definition counts (v0 : list float) : list nat := imap spike v0.

(** The body of the loop on the pair of [v0] and [step]. *)
Definition iteration (st : list float * float) : option (list float * float) :=
  let c := counts st.1 in
  v1 ← masked_sub st.1 (Bisection.count_gt0 c) st.2;
  v2 ← masked_add v1 (Bisection.count_eq0 c) st.2;
  Some (v2, st.2 / 2).

(** [v0] and [step] after the first [k] iterations. *)
Fixpoint after (k : nat) : option (list float * float) :=
  match k with
  | O => Some (replicate 100 v0_init, step_init)
  | S k' => st ← after k'; iteration st
  end.

(** The entry of segment [j] in [v0] after [k] iterations. *)
Definition estimate (k j : nat) : option float :=
  st ← after k; st.1 !! j.

End Loop.

(** The correction of one entry, the step before iteration [k], and every
    value an entry can have after [k] iterations. *)
Definition update (s x : float) (c : nat) : float :=
  if (0 <? c)%nat then x - s else x + s.

Fixpoint step_at (k : nat) : float :=
  match k with
  | O => step_init
  | S k' => step_at k' / 2
  end.

Fixpoint reach (k : nat) : list float :=
  match k with
  | O => [v0_init]
  | S k' => x ← reach k'; [x - step_at k'; x + step_at k']
  end.

(** The entry of a segment that never spikes, and of one that always
    does. *)
Fixpoint up (k : nat) : float :=
  match k with
  | O => v0_init
  | S k' => up k' + step_at k'
  end.

Fixpoint down (k : nat) : float :=
  match k with
  | O => v0_init
  | S k' => down k' - step_at k'
  end.

(** Strictly between -25 mV and 75 mV. *)
Definition in_range (x : float) : bool :=
  (- (25 * mV) <? x) && (x <? 75 * mV).

(** A correction by [s] moves [x] strictly down, respectively up. *)
Definition moves (s x : float) : bool :=
  (x - s <? x) && (x <? x + s).

(** [x] and [y] differ by at most 2^-55 V, less than 3e-17 V. *)
Definition near (x y : float) : bool := abs (x - y) <=? 0x1p-55.

(** A segment with a sharp threshold [th]. *)
Definition sharp (th : float) (j : nat) (x : float) : nat :=
  if x <=? th then 0%nat else 1%nat.

(** A segment that stays silent when started below [th], and one that
    fires when started above [th]. *)
Definition silent_below (th : float) (j : nat) (x : float) : nat :=
  if x <? th then 0%nat else 1%nat.

Definition firing_above (th : float) (j : nat) (x : float) : nat :=
  if th <? x then 1%nat else 0%nat.

(** "In every iteration every entry of [v0] changes by exactly the current
    step in magnitude." *)
Definition changes_by_exactly_step : Prop :=
  forall (spike : nat -> float -> nat) (k j : nat)
         (st st' : list float * float) (x x' : float),
    (k < 10)%nat ->
    after spike k = Some st -> after spike (S k) = Some st' ->
    st.1 !! j = Some x -> st'.1 !! j = Some x' ->
    (abs (x' - x) =? st.2) = true.

End Float64.

(** ** Example 1: the pyloric circuit *)

Module Pyloric.
Local Open Scope Q_scope.
Local Open Scope string_scope.

(** Units, in SI base units. *)
Definition second : Q := 1.
Definition ms : Q := 1 / 1000.
Definition mV : Q := 1 / 1000.
Definition nA : Q := 1 / 1000000000.
Definition nS : Q := 1 / 1000000000.
Definition uS : Q := 1 / 1000000.
Definition pF : Q := 1 / 1000000000000.

(** Model equations are strings for the simulator; here they are syntax
    trees with the same shape. *)
Inductive expr : Type :=
  | Num (q : Q)
  | Var (x : string)
  | Add (e1 e2 : expr)
  | Sub (e1 e2 : expr)
  | Mul (e1 e2 : expr)
  | Div (e1 e2 : expr)
  | Pow (e : expr) (k : positive)
  | Tanh (e : expr).

Inductive kind : Type := DifferentialEq | SubexpressionEq | ParameterEq.

Record equation : Type :=
  Equation { name : string; sort : kind; rhs : option expr }.

(** [eqs], as accumulated over the four cells that build it. *)
Definition eqs : list equation :=
  [ Equation "v" DifferentialEq
      (Some (Div (Sub (Sub (Sub (Add
         (Mul (Mul (Var "Delta_T") (Var "g"))
              (Add (Mul (Sub (Num 0) (Var "a")) (Pow (Sub (Var "v") (Var "v_T")) 3))
                   (Mul (Var "b") (Pow (Sub (Var "v") (Var "v_T")) 2))))
         (Var "w")) (Var "x")) (Var "I_fast")) (Var "I_slow")) (Var "C")));
    Equation "w" DifferentialEq
      (Some (Div (Sub (Sub (Var "c")
                           (Mul (Var "d") (Pow (Sub (Var "v") (Var "v_T")) 2)))
                      (Var "w")) (Var "tau")));
    Equation "x" DifferentialEq
      (Some (Div (Sub (Mul (Var "s") (Sub (Var "v") (Var "v_r"))) (Var "x"))
                 (Var "tau_x")));
    Equation "Ca" DifferentialEq
      (Some (Div (Sub (Num 0) (Var "Ca")) (Var "tau_Ca")));
    Equation "s" SubexpressionEq
      (Some (Mul (Var "S") (Sub (Num 1) (Tanh (Var "z")))));
    Equation "g" SubexpressionEq
      (Some (Mul (Var "G") (Add (Num 1) (Tanh (Var "z")))));
    Equation "z" DifferentialEq
      (Some (Div (Tanh (Sub (Var "Ca") (Var "Ca_target"))) (Var "tau_z")));
    Equation "I_fast" ParameterEq None;
    Equation "I_slow" ParameterEq None;
    Equation "Ca_target" ParameterEq None;
    Equation "label" ParameterEq None ].

(** The constants the equations refer to.  The one-letter ones of the
    notebook carry the prefix [const_] here. *)
Definition Delta_T : Q := (175 / 10) * mV.
Definition v_T : Q := - (40) * mV.
Definition tau : Q := 2 * ms.
Definition tau_Ca : Q := 150 * ms.
Definition tau_x : Q := 2 * second.
Definition v_r : Q := - (68) * mV.
Definition const_a : Q := 1 / Delta_T ^ 3.
Definition const_b : Q := 3 / Delta_T ^ 2.
Definition const_d : Q := (25 / 10) * nA / Delta_T ^ 2.
Definition const_C : Q := 60 * pF.
Definition const_S : Q := 2 * nA / Delta_T.
Definition const_G : Q := (285 / 10) * nS.
Definition tau_z : Q := 5 * second.
Definition const_c : Q := (12 / 10) * nA.

(** [ABPD, LP, PY = 0, 1, 2] *)
Definition ABPD : Z := 0.
Definition LP : Z := 1.
Definition PY : Z := 2.

Definition namespace (x : string) : option Q :=
  if String.eqb x "Delta_T" then Some Delta_T
  else if String.eqb x "v_T" then Some v_T
  else if String.eqb x "tau" then Some tau
  else if String.eqb x "tau_Ca" then Some tau_Ca
  else if String.eqb x "tau_x" then Some tau_x
  else if String.eqb x "v_r" then Some v_r
  else if String.eqb x "a" then Some const_a
  else if String.eqb x "b" then Some const_b
  else if String.eqb x "d" then Some const_d
  else if String.eqb x "C" then Some const_C
  else if String.eqb x "S" then Some const_S
  else if String.eqb x "G" then Some const_G
  else if String.eqb x "tau_z" then Some tau_z
  else if String.eqb x "c" then Some const_c
  else None.

(** The state variables and parameters of one neuron of the group. *)
Record cell : Type :=
  Cell { c_v : Q; c_w : Q; c_x : Q; c_Ca : Q; c_z : Q;
         c_I_fast : Q; c_I_slow : Q; c_Ca_target : Q; c_label : Z }.

Definition variable (n : cell) (x : string) : option Q :=
  if String.eqb x "v" then Some (c_v n)
  else if String.eqb x "w" then Some (c_w n)
  else if String.eqb x "x" then Some (c_x n)
  else if String.eqb x "Ca" then Some (c_Ca n)
  else if String.eqb x "z" then Some (c_z n)
  else if String.eqb x "I_fast" then Some (c_I_fast n)
  else if String.eqb x "I_slow" then Some (c_I_slow n)
  else if String.eqb x "Ca_target" then Some (c_Ca_target n)
  else if String.eqb x "label" then Some (inject_Z (c_label n))
  else None.

Definition assign (n : cell) (x : string) (q : Q) : option cell :=
  let '(Cell v w x' Ca z If Is Ct l) := n in
  if String.eqb x "v" then Some (Cell q w x' Ca z If Is Ct l)
  else if String.eqb x "w" then Some (Cell v q x' Ca z If Is Ct l)
  else if String.eqb x "x" then Some (Cell v w q Ca z If Is Ct l)
  else if String.eqb x "Ca" then Some (Cell v w x' q z If Is Ct l)
  else if String.eqb x "z" then Some (Cell v w x' Ca q If Is Ct l)
  else None.

Fixpoint find_eq (l : list equation) (x : string) : option equation :=
  match l with
  | [] => None
  | e :: l' => if String.eqb (name e) x then Some e else find_eq l' x
  end.

Section Semantics.

(** The hyperbolic tangent of the simulator. *)
Variable tanh : Q -> Q.

Fixpoint eval (env : string -> option Q) (e : expr) : option Q :=
  match e with
  | Num q => Some q
  | Var x => env x
  | Add e1 e2 => a ← eval env e1; b ← eval env e2; Some (a + b)
  | Sub e1 e2 => a ← eval env e1; b ← eval env e2; Some (a - b)
  | Mul e1 e2 => a ← eval env e1; b ← eval env e2; Some (a * b)
  | Div e1 e2 => a ← eval env e1; b ← eval env e2; Some (a / b)
  | Pow e1 k => a ← eval env e1; Some (a ^ Z.pos k)
  | Tanh e1 => a ← eval env e1; Some (tanh a)
  end.

(** Names resolve to a variable of the group first, then to the
    namespace. *)
Definition base_env (n : cell) (x : string) : option Q :=
  match variable n x with
  | Some q => Some q
  | None => namespace x
  end.

(** Subexpressions are names for their right-hand side. *)
Definition env_of (n : cell) (x : string) : option Q :=
  match find_eq eqs x with
  | Some (Equation _ SubexpressionEq (Some e)) => eval (base_env n) e
  | _ => base_env n x
  end.

(** The value of subexpression [x], and the derivative of variable [x],
    for a neuron in state [n]. *)
Definition value_of (n : cell) (x : string) : option Q :=
  match find_eq eqs x with
  | Some (Equation _ SubexpressionEq (Some e)) => eval (env_of n) e
  | _ => None
  end.

Definition derivative (n : cell) (x : string) : option Q :=
  match find_eq eqs x with
  | Some (Equation _ DifferentialEq (Some e)) => eval (env_of n) e
  | _ => None
  end.

(** A statement [x += e], the form of the group's [reset]. *)
Record statement : Type := AugAdd { target : string; amount : expr }.

Definition exec (st : statement) (n : cell) : option cell :=
  old ← variable n (target st);
  d ← eval (env_of n) (amount st);
  assign n (target st) (old + d).

End Semantics.

(** [circuit = NeuronGroup(3, eqs, threshold='v>-20*mV',
    refractory='v>-20*mV', ..., reset='Ca += 0.1')] *)
Definition circuit_N : nat := 3.
Definition reset : statement := AugAdd "Ca" (Num (1 / 10)).
Definition above_threshold (n : cell) : bool :=
  negb (Qle_bool (c_v n) (- (20) * mV)).

(** The end of a time step for one neuron: a neuron that is above the
    threshold and was not refractory spikes, and the reset is executed on
    it; any other neuron is left alone.  The result tells whether the
    neuron spiked. *)
Definition fire (tanh : Q -> Q) (not_refractory : bool) (n : cell)
  : bool * option cell :=
  if above_threshold n && not_refractory
  then (true, exec tanh reset n)
  else (false, Some n).

(** [circuit.label = [ABPD, LP, PY]] and
    [circuit.Ca_target = [0.048, 0.0384, 0.06]] *)
Definition label : list Z := [ABPD; LP; PY].
Definition Ca_target : list Q := [48 / 1000; 384 / 10000; 6 / 100].

(** The group after the cell that initialises it.  [rand_w i] and
    [rand_z i] are the draws of [rand()] for neuron [i]; variables that are
    not assigned start at 0. *)
Definition circuit (rand_w rand_z : nat -> Q) : list cell :=
  imap (fun i (lc : Z * Q) =>
          Cell v_r (- (5) * nA * rand_w i) 0 0 (rand_z i * (2 / 10) - 1 / 10)
               0 0 lc.2 lc.1)
       (zip label Ca_target).

(** *** Synapses *)

(** [connect(condition)] on a group with the given labels: one synapse for
    every ordered pair of neurons whose labels satisfy the condition. *)
Definition connect (cond : Z -> Z -> bool) (lab : list Z) : list (nat * nat) :=
  i ← seq 0 (length lab);
  j ← seq 0 (length lab);
  match lab !! i, lab !! j with
  | Some p, Some q => if cond p q then [(i, j)] else []
  | _, _ => []
  end.

(** [var['condition'] = value]: the synapses that satisfy the condition get
    the value, the others keep theirs. *)
Definition set_where (cond : Z -> Z -> bool) (value : Q) (lab : list Z)
    (syn : list (nat * nat)) (var : list Q) : list Q :=
  zip_with (fun (ij : nat * nat) (old : Q) =>
              match lab !! ij.1, lab !! ij.2 with
              | Some p, Some q => if cond p q then value else old
              | _, _ => old
              end) syn var.

(** ['label_pre != label_post and not (label_pre == PY and label_post == ABPD)'] *)
Definition fast_condition (pre post : Z) : bool :=
  negb (pre =? post)%Z && negb ((pre =? PY)%Z && (post =? ABPD)%Z).

Definition fast_synapses : list (nat * nat) := connect fast_condition label.

(** The five assignments to [g_fast], in order. *)
Definition g_fast_assignments : list ((Z -> Z -> bool) * Q) :=
  [ (fun pre post => (pre =? ABPD)%Z && (post =? LP)%Z, (15 / 1000) * uS);
    (fun pre post => (pre =? ABPD)%Z && (post =? PY)%Z, (5 / 1000) * uS);
    (fun pre post => (pre =? LP)%Z && (post =? ABPD)%Z, (1 / 100) * uS);
    (fun pre post => (pre =? LP)%Z && (post =? PY)%Z, (2 / 100) * uS);
    (fun pre post => (pre =? PY)%Z && (post =? LP)%Z, (5 / 1000) * uS) ].

(** ['label_pre == ABPD and label_post != ABPD'] *)
Definition slow_condition (pre post : Z) : bool :=
  (pre =? ABPD)%Z && negb (post =? ABPD)%Z.

Definition slow_synapses : list (nat * nat) := connect slow_condition label.

Definition g_slow_assignments : list ((Z -> Z -> bool) * Q) :=
  [ (fun pre post => (post =? LP)%Z, (25 / 1000) * uS);
    (fun pre post => (post =? PY)%Z, (15 / 1000) * uS) ].

Definition k_2_assignments : list ((Z -> Z -> bool) * Q) :=
  [ (fun pre post => (post =? LP)%Z, (3 / 100) / ms);
    (fun pre post => (post =? PY)%Z, (8 / 1000) / ms) ].

(** A synaptic variable after a sequence of assignments; it starts at 0. *)
Definition assigned (tbl : list ((Z -> Z -> bool) * Q)) (syn : list (nat * nat))
  : list Q :=
  fold_left (fun var cv => set_where cv.1 cv.2 label syn var) tbl
            (replicate (length syn) 0).

Definition g_fast : list Q := assigned g_fast_assignments fast_synapses.
Definition g_slow : list Q := assigned g_slow_assignments slow_synapses.
Definition k_2 : list Q := assigned k_2_assignments slow_synapses.

(** How many of the assignments of a table reach the pair [(i, j)]. *)
Definition hits (tbl : list ((Z -> Z -> bool) * Q)) (ij : nat * nat) : nat :=
  match label !! ij.1, label !! ij.2 with
  | Some p, Some q => length (filter (fun cv => Is_true (cv.1 p q)) tbl)
  | _, _ => 0%nat
  end.

(** All ordered pairs of neurons of the group. *)
Definition pairs : list (nat * nat) :=
  i ← seq 0 circuit_N; j ← seq 0 circuit_N; [(i, j)].

(** *** The labels as parameters

    The notebook calls its label numbers arbitrary.  These are the two
    conditions with the numbers they mention left open.  [label] is a
    32-bit integer of the simulator; for numbers that fit, its comparisons
    are those of [Z]. *)
Definition int32 (z : Z) : Prop := (- 2 ^ 31 <= z < 2 ^ 31)%Z.

Definition fast_condition_for (abpd py : Z) (pre post : Z) : bool :=
  negb (pre =? post)%Z && negb ((pre =? py)%Z && (post =? abpd)%Z).

Definition slow_condition_for (abpd : Z) (pre post : Z) : bool :=
  (pre =? abpd)%Z && negb (post =? abpd)%Z.

(** *** Synaptic currents *)

Definition s_fast : Q := (2 / 10) / mV.
Definition V_fast : Q := - (50) * mV.
Definition E_syn : Q := - (75) * mV.

Section Currents.

(** The exponential of the simulator. *)
Variable exp : Q -> Q.

(** [I_fast_post = g_fast*(v_post - E_syn)/(1+exp(s_fast*(V_fast-v_pre)))],
    the contribution of one synapse. *)
Definition fast_current (g v_pre v_post : Q) : Q :=
  g * (v_post - E_syn) / (1 + exp (s_fast * (V_fast - v_pre))).

(** [I_slow_post = g_slow*m_slow*(v_post-E_syn)] *)
Definition slow_current (g m v_post : Q) : Q :=
  g * m * (v_post - E_syn).


(** [(summed)]: the variable of neuron [j] is the sum of the contributions
    of the synapses that target [j]; without such a synapse it is 0. *)
Definition summed (syn : list (nat * nat)) (contrib : list Q) (j : nat) : Q :=
  foldr Qplus 0
    (omap (fun ic : nat * nat * Q => if (ic.1.2 =? j)%nat then Some ic.2 else None)
          (zip syn contrib)).

(** The contributions of the fast and of the slow synapses when the
    membrane potentials are [vs] and the slow activations [ms].  An index
    out of range does not occur for a group of three and contributes 0. *)
Definition fast_contrib (vs : list Q) : list Q :=
  imap (fun idx (ij : nat * nat) =>
          match g_fast !! idx, vs !! ij.1, vs !! ij.2 with
          | Some g, Some v_pre, Some v_post => fast_current g v_pre v_post
          | _, _, _ => 0
          end) fast_synapses.

Definition slow_contrib (vs ms : list Q) : list Q :=
  imap (fun idx (ij : nat * nat) =>
          match g_slow !! idx, ms !! idx, vs !! ij.2 with
          | Some g, Some m, Some v_post => slow_current g m v_post
          | _, _, _ => 0
          end) slow_synapses.

Definition I_fast_post (vs : list Q) (j : nat) : Q :=
  summed fast_synapses (fast_contrib vs) j.

Definition I_slow_post (vs ms : list Q) (j : nat) : Q :=
  summed slow_synapses (slow_contrib vs ms) j.

End Currents.

End Pyloric.

(** ** Properties of the bisection search *)

Module BisectionSpec.
Import Brian Bisection.
Local Open Scope Q_scope.

(** *** Arrays *)

Lemma zip_add_zeros (l : list nat) :
  zip_with Nat.add (replicate (length l) 0%nat) l = l.
Proof. induction l as [|k l IH]; simpl; [done | by rewrite IH]. Qed.

Lemma length_count_gt0 c : length (count_gt0 c) = length c.
Proof. apply length_map. Qed.

Lemma length_count_eq0 c : length (count_eq0 c) = length c.
Proof. apply length_map. Qed.

(** The two masks never select the same entry and never both miss one. *)
Lemma masks_partition (c : list nat) :
  zip_with xorb (count_gt0 c) (count_eq0 c) = replicate (length c) true.
Proof.
  induction c as [|k c IH]; simpl; [done |].
  rewrite IH. by destruct k.
Qed.

(** The two masked updates together correct every entry once. *)
Lemma masked_updates (d : Q) (a : list Q) (c : list nat) :
  zip_with (fun x (b : bool) => if b then x + d else x)
    (zip_with (fun x (b : bool) => if b then x - d else x) a (count_gt0 c))
    (count_eq0 c)
  = zip_with (update d) a c.
Proof.
  revert c. induction a as [|x a IH]; intros [|k c]; simpl; try done.
  rewrite IH. by destruct k.
Qed.

Section Loop.

Context {G : Type}.
Variable integrate : Q -> neuron G -> neuron G * nat.

Lemma count_run_primed (a : list (neuron G)) (vals : list Q) :
  length vals = length a ->
  count (run integrate 20 (primed a vals)) = spikes integrate a vals.
Proof.
  intros Hl. unfold run, primed, spikes; simpl.
  assert (map snd (map (integrate 20) (zip_with with_v a vals))
          = zip_with (spikes_of integrate) a vals) as ->.
  { clear Hl. revert vals.
    induction a as [|n a IH]; intros [|x vals]; simpl; try done.
    by rewrite IH. }
  assert (length a = length (zip_with (spikes_of integrate) a vals)) as ->.
  { rewrite length_zip_with. lia. }
  apply zip_add_zeros.
Qed.

Lemma length_spikes (a : list (neuron G)) (vals : list Q) :
  length vals = length a -> length (spikes integrate a vals) = length a.
Proof. intros Hl. unfold spikes. rewrite length_zip_with. lia. Qed.

Lemma ests_succ (a : list (neuron G)) (v : list Q) (s : Q) (k : nat) :
  zip_with (update (step_at s k)) (ests integrate a v s k)
           (spikes integrate a (ests integrate a v s k))
  = ests integrate a v s (S k).
Proof.
  unfold ests, spikes. revert v.
  induction a as [|n a IH]; intros [|x v]; simpl; try done.
  by rewrite IH.
Qed.

Lemma length_ests (a : list (neuron G)) (v : list Q) (s : Q) (k : nat) :
  length v = length a -> length (ests integrate a v s k) = length a.
Proof. intros Hl. unfold ests. rewrite length_zip_with. lia. Qed.

Lemma ests_0 (a : list (neuron G)) (v : list Q) (s : Q) :
  length v = length a -> ests integrate a v s 0 = v.
Proof.
  unfold ests. revert v.
  induction a as [|n a IH]; intros [|x v] Hl; simpl in *; try done.
  rewrite IH; [done | lia].
Qed.

Lemma lookup_ests (a : list (neuron G)) (v : list Q) (s : Q) (k j : nat) n x :
  a !! j = Some n -> v !! j = Some x ->
  ests integrate a v s k !! j = Some (est_at integrate n x s k).
Proof.
  intros Ha Hv. unfold ests. rewrite lookup_zip_with, Ha; simpl.
  by rewrite Hv.
Qed.

(** One iteration on a well-formed state: every step succeeds and the
    result is the following. *)
Lemma iteration_wf (a : list (neuron G)) (st : state G) (i : nat) :
  wf a st -> (i < 10)%nat ->
  let c := spikes integrate a (v0 st) in
  let v' := zip_with (update (step st)) (v0 st) c in
  iteration integrate i st
  = Some (State (run integrate 20 (primed a (v0 st))) v' (step st / 2)
            (<[(i + 1)%nat := Some <$> v']> (estimates st))
            (log st ++ events_of i (v0 st))).
Proof.
  intros [Hs Hv Hr Hc] Hi c v'.
  assert (length c = length (v0 st)) as Hlc.
  { unfold c. rewrite (length_spikes a (v0 st) Hv). lia. }
  assert (length v' = length a) as Hlv.
  { unfold v'. rewrite length_zip_with. lia. }
  unfold iteration, restore.
  rewrite Hs; simpl. unfold set_v; simpl.
  rewrite Hv, Nat.eqb_refl; simpl.
  pose proof (count_run_primed a (v0 st) Hv) as Hcnt.
  unfold run, primed in Hcnt; simpl in Hcnt. rewrite Hcnt. clear Hcnt.
  fold (primed a (v0 st)). fold c.
  unfold masked_sub. rewrite length_count_gt0, Hlc, Nat.eqb_refl; simpl.
  unfold masked_add.
  rewrite length_count_eq0, length_zip_with, length_count_gt0, Hlc.
  rewrite Nat.min_id, Nat.eqb_refl; simpl.
  rewrite masked_updates. fold v'.
  unfold set_row.
  destruct (lookup_lt_is_Some_2 (estimates st) (i + 1)) as [row Hrow]; [lia |].
  rewrite Hrow; simpl.
  assert (length row = length a) as Hlr.
  { eapply (proj1 (Forall_lookup _ _) Hc); eauto. }
  rewrite Hlv, Hlr, Nat.eqb_refl. done.
Qed.

Lemma for_each_app (l1 l2 : list nat) (st : state G) :
  for_each integrate (l1 ++ l2) st
  = st' ← for_each integrate l1 st; for_each integrate l2 st'.
Proof.
  revert st. induction l1 as [|i l1 IH]; intros st; simpl; [done |].
  destruct (iteration integrate i st) as [st1|]; simpl; [apply IH | done].
Qed.

Lemma search_succ (a : list (neuron G)) (v : list Q) (s : Q) (k : nat) :
  search integrate a v s (S k)
  = st ← search integrate a v s k; iteration integrate k st.
Proof.
  unfold search. rewrite seq_S.
  destruct (init a v s) as [st0|]; [| done].
  cbn [mbind option_bind]. rewrite for_each_app.
  destruct (for_each integrate (seq 0 k) st0) as [st|]; [| done].
  cbn [mbind option_bind for_each Nat.add].
  by destruct (iteration integrate k st).
Qed.

Lemma length_table (a : list (neuron G)) (v : list Q) (s : Q) (k : nat) :
  length (table integrate a v s k) = 11%nat.
Proof.
  induction k; cbn [table]; rewrite length_insert;
    [apply length_replicate | apply IHk].
Qed.

Lemma table_cols (a : list (neuron G)) (v : list Q) (s : Q) (k : nat) :
  length v = length a ->
  Forall (fun r => length r = length a) (table integrate a v s k).
Proof.
  intros Hl. induction k; cbn [table].
  - apply Forall_insert.
    + apply Forall_replicate. apply length_replicate.
    + by rewrite length_fmap.
  - apply Forall_insert; [apply IHk |].
    rewrite length_fmap. by apply length_ests.
Qed.

Lemma stored_net_at (a : list (neuron G)) (v : list Q) (s : Q) (k : nat) :
  stored (net_at integrate a v s k) = Some (snap0 a).
Proof. by destruct k. Qed.

Lemma state_at_wf (a : list (neuron G)) (v : list Q) (s : Q) (k : nat) :
  length v = length a -> wf a (state_at integrate a v s k).
Proof.
  intros Hl. split; simpl.
  - apply stored_net_at.
  - by apply length_ests.
  - apply length_table.
  - by apply table_cols.
Qed.

(** The loop never fails on arrays of matching size, and after [k]
    iterations the notebook's variables are those of [state_at]. *)
Lemma search_state_at (a : list (neuron G)) (v : list Q) (s : Q) (k : nat) :
  length v = length a -> (k <= 10)%nat ->
  search integrate a v s k = Some (state_at integrate a v s k).
Proof.
  intros Hl. induction k as [|k IH]; intros Hk.
  - unfold search, init, set_row; simpl.
    rewrite length_replicate, Hl, Nat.eqb_refl; simpl.
    unfold state_at; simpl. by rewrite (ests_0 a v s Hl).
  - rewrite search_succ, IH by lia. simpl.
    rewrite (iteration_wf a _ k (state_at_wf a v s k Hl)) by lia.
    unfold state_at; simpl. by rewrite ests_succ.
Qed.

(** *** The correction step *)

Lemma pow2_pos (k : nat) : 0 < 2 ^ Z.of_nat k.
Proof. apply Qpower_0_lt. lra. Qed.

Lemma pow2_succ (k : nat) : 2 ^ Z.of_nat (S k) == 2 * 2 ^ Z.of_nat k.
Proof.
  rewrite Nat2Z.inj_succ. unfold Z.succ.
  rewrite Qpower_plus by lra. change (2 ^ 1) with 2. ring.
Qed.

Lemma step_at_pow (s : Q) (k : nat) : step_at s k == s / 2 ^ Z.of_nat k.
Proof.
  induction k as [|k IH].
  - simpl. field.
  - cbn [step_at]. rewrite IH, pow2_succ.
    pose proof (pow2_pos k). field. lra.
Qed.

Lemma half_eq (x : Q) : x / 2 == x * (1 # 2).
Proof. field. Qed.

Lemma step_at_pos (s : Q) (k : nat) : 0 < s -> 0 < step_at s k.
Proof.
  intros Hs. induction k as [|k IH]; cbn [step_at]; [| rewrite half_eq]; lra.
Qed.

(** *** One segment *)

Lemma est_at_succ (n : neuron G) (x s : Q) (k : nat) :
  est_at integrate n x s (S k)
  = update (step_at s k) (est_at integrate n x s k)
           (spikes_of integrate n (est_at integrate n x s k)).
Proof. reflexivity. Qed.

Lemma update_cases (s x : Q) (c : nat) :
  (c = 0%nat /\ update s x c = x + s) \/
  ((0 < c)%nat /\ update s x c = x - s).
Proof.
  unfold update. destruct c as [|c]; simpl; [left | right]; split; auto; lia.
Qed.

(** The estimate stays within [2 s - 2 s_k] of where it started. *)
Lemma est_at_range (n : neuron G) (x s : Q) (k : nat) :
  0 < s ->
  x - (2 * s - 2 * step_at s k) <= est_at integrate n x s k
  /\ est_at integrate n x s k <= x + (2 * s - 2 * step_at s k).
Proof.
  intros Hs. induction k as [|k [IHl IHu]].
  - simpl. lra.
  - rewrite est_at_succ. cbn [step_at]. rewrite half_eq.
    pose proof (step_at_pos s k Hs) as Hp.
    destruct (update_cases (step_at s k) (est_at integrate n x s k)
                (spikes_of integrate n (est_at integrate n x s k)))
      as [[_ ->]|[_ ->]]; lra.
Qed.


(** *** The trace and the table *)

Lemma runs_trace (a : list (neuron G)) (v : list Q) (s : Q) (k : nat) :
  runs (trace integrate a v s k) = k.
Proof.
  induction k as [|k IH]; [done |].
  cbn [trace]. unfold runs in *. rewrite omap_app, length_app, IH.
  simpl. lia.
Qed.

Lemma stores_trace (a : list (neuron G)) (v : list Q) (s : Q) (k : nat) :
  stores (trace integrate a v s k) = 1%nat.
Proof.
  induction k as [|k IH]; [done |].
  cbn [trace]. unfold stores in *. rewrite omap_app, length_app, IH.
  done.
Qed.

Lemma trace_head (a : list (neuron G)) (v : list Q) (s : Q) (k : nat) :
  exists tl, trace integrate a v s k = EStore :: tl.
Proof.
  induction k as [|k [tl IH]]; cbn [trace]; [by eexists |].
  rewrite IH. by eexists.
Qed.

Lemma rows_assigned_trace (a : list (neuron G)) (v : list Q) (s : Q) (k : nat) :
  rows_assigned (trace integrate a v s k) = seq 0 (S k).
Proof.
  induction k as [|k IH]; [done |].
  cbn [trace]. unfold rows_assigned in *. rewrite omap_app, IH.
  rewrite (seq_S (S k)). simpl. by rewrite Nat.add_1_r.
Qed.

(** Row [i] of the table holds the estimates after [i] iterations as soon
    as iteration [i] is over, and is not touched again. *)
Lemma table_row_done (a : list (neuron G)) (v : list Q) (s : Q) (k i : nat) :
  length v = length a -> (i <= k)%nat -> (k <= 10)%nat ->
  table integrate a v s k !! i = Some (Some <$> ests integrate a v s i).
Proof.
  intros Hl. induction k as [|k IH]; intros Hi Hk.
  - assert (i = 0%nat) as -> by lia. cbn [table].
    rewrite list_lookup_insert_eq by (rewrite length_replicate; lia).
    by rewrite (ests_0 a v s Hl).
  - cbn [table]. destruct (decide (i = S k)) as [->|Hne].
    + rewrite Nat.add_1_r.
      rewrite list_lookup_insert_eq by (rewrite length_table; lia). done.
    + rewrite list_lookup_insert_ne by lia. apply IH; lia.
Qed.

(** The rows of later iterations still hold [nan]. *)
Lemma table_row_pending (a : list (neuron G)) (v : list Q) (s : Q) (k i : nat) :
  (k < i)%nat -> (i < 11)%nat ->
  table integrate a v s k !! i = Some (replicate (length a) None).
Proof.
  intros Hi Hk. induction k as [|k IH]; cbn [table].
  - rewrite list_lookup_insert_ne by lia. by apply lookup_replicate_2.
  - rewrite list_lookup_insert_ne by lia. apply IH. lia.
Qed.

(** *** The notebook's group *)

Variable rest : G.

Lemma length_axon : length (axon rest) = 100%nat.
Proof. unfold axon, group. by rewrite !length_map, length_seq. Qed.

Lemma lookup_axon (j : nat) :
  (j < 100)%nat -> axon rest !! j = Some (Neuron (gNa_expr 100 j) 0 rest).
Proof.
  intros Hj. unfold axon, group.
  rewrite !list_lookup_fmap, lookup_seq_lt by done. done.
Qed.

Lemma lookup_ones25 (j : nat) :
  (j < 100)%nat -> ones25 (axon rest) !! j = Some 25.
Proof.
  intros Hj. unfold ones25. apply lookup_replicate_2. by rewrite length_axon.
Qed.

Lemma length_ones25 : length (ones25 (axon rest)) = length (axon rest).
Proof. apply length_replicate. Qed.

Lemma after_state_at (k : nat) :
  (k <= 10)%nat ->
  after integrate rest k
  = Some (state_at integrate (axon rest) (ones25 (axon rest)) 25 k).
Proof. intros Hk. apply search_state_at; [apply length_ones25 | done]. Qed.

Lemma estimate_est_at (k j : nat) :
  (k <= 10)%nat -> (j < 100)%nat ->
  estimate integrate rest k j
  = Some (est_at integrate (Neuron (gNa_expr 100 j) 0 rest) 25 25 k).
Proof.
  intros Hk Hj. unfold estimate. rewrite after_state_at by done.
  cbn [mbind option_bind state_at v0].
  apply lookup_ests; [by apply lookup_axon | by apply lookup_ones25].
Qed.

End Loop.

(** *** A segment with a sharp threshold *)


(** *** The correction step halves (C2) *)

(** C2.  The loop runs ten iterations and halves [step] in each: after the
    [k]-th iteration ([k] from 0 to 10) exactly [k] simulations have been
    run and [step] is [25/2^k] mV; after the tenth, the notebook is done and
    [step] is [25/1024] mV. *)
Theorem step_halves {G : Type} (integrate : Q -> neuron G -> neuron G * nat)
    (rest : G) (k : nat) :
  (k <= 10)%nat ->
  exists st : state G,
    after integrate rest k = Some st
    /\ step st == 25 / 2 ^ Z.of_nat k
    /\ runs (log st) = k
    /\ (k = 10%nat ->
        notebook integrate rest = Some st /\ step st == 25 / 1024).
Proof.
  intros Hk. eexists. split; [by apply after_state_at |].
  cbn [state_at step log]. split; [apply step_at_pow |].
  split; [apply runs_trace |].
  intros ->. split; [unfold notebook; by apply after_state_at |].
  rewrite step_at_pow. reflexivity.
Qed.

Lemma step_halves_witness :
  exists st : state unit,
    after (sharp 30) tt 10 = Some st
    /\ step st == 25 / 2 ^ Z.of_nat 10
    /\ runs (log st) = 10%nat
    /\ (10%nat = 10%nat ->
        notebook (sharp 30) tt = Some st /\ step st == 25 / 1024).
Proof. apply (step_halves (sharp 30) tt 10). lia. Defined.

(** *** Convergence (C1) *)




(** *** Store once, restore in every iteration (C3) *)

Lemma v_primed {G : Type} (a : list (neuron G)) (vals : list Q) :
  length vals = length a -> v <$> zip_with with_v a vals = vals.
Proof.
  revert vals. induction a as [|n a IH]; intros [|x vals] Hl; simpl in *;
    try done.
  f_equal. apply IH. lia.
Qed.

Lemma gNa_primed {G : Type} (a : list (neuron G)) (vals : list Q) :
  length vals = length a -> gNa <$> zip_with with_v a vals = gNa <$> a.
Proof.
  revert vals. induction a as [|n a IH]; intros [|x vals] Hl; simpl in *;
    try done.
  f_equal. apply IH. lia.
Qed.

Lemma gates_primed {G : Type} (a : list (neuron G)) (vals : list Q) :
  length vals = length a -> gates <$> zip_with with_v a vals = gates <$> a.
Proof.
  revert vals. induction a as [|n a IH]; intros [|x vals] Hl; simpl in *;
    try done.
  f_equal. apply IH. lia.
Qed.

(** C3.  The snapshot every iteration finds is the one taken by the single
    [store()] before the loop (the group at rest, no spikes counted, clock
    at 0), and no iteration replaces it.  Iteration [k] restores that
    state; then overwrites the membrane potentials, and nothing else, with
    [v0]; then runs this network for 20 ms; then reads the counts of this
    run, which decide the correction of [v0].  So the counts are those of
    the stored segments started from [v0], in every iteration. *)
Theorem iteration_starts_from_stored_state {G : Type}
    (integrate : Q -> neuron G -> neuron G * nat) (rest : G) (k : nat) :
  (k < 10)%nat ->
  exists (st st' : state G) (n1 n2 : network G),
    after integrate rest k = Some st
    /\ after integrate rest (S k) = Some st'
    /\ stored (net st) = Some (Snapshot (axon rest) (replicate 100 0%nat) 0)
    /\ stored (net st') = stored (net st)
    /\ (exists tl, log st' = EStore :: tl) /\ stores (log st') = 1%nat
    /\ restore (net st) = Some n1
    /\ neurons n1 = axon rest /\ count n1 = replicate 100 0%nat /\ t n1 = 0
    /\ set_v n1 (v0 st) = Some n2
    /\ v <$> neurons n2 = v0 st
    /\ gNa <$> neurons n2 = gNa <$> axon rest
    /\ gates <$> neurons n2 = gates <$> axon rest
    /\ count n2 = count n1 /\ t n2 = t n1
    /\ net st' = run integrate 20 n2
    /\ t (net st') == 20
    /\ count (net st')
       = zip_with (fun n x => snd (integrate 20 (Neuron (gNa n) x (gates n))))
                  (axon rest) (v0 st)
    /\ v0 st'
       = zip_with (fun x (c : nat) =>
                     if (0 <? c)%nat then x - step st else x + step st)
                  (v0 st) (count (net st'))
    /\ log st' = log st ++ [ERestore; ESetV (v0 st); ERun 20; EReadCount;
                            EReadCount; EAssignRow (k + 1)].
Proof.
  intros Hk.
  set (a := axon rest). set (vs := ones25 a).
  assert (length vs = length a) as Hl by apply length_ones25.
  assert (length a = 100%nat) as Ha by apply length_axon.
  assert (length (ests integrate a vs 25 k) = length a) as Hle
    by by apply length_ests.
  exists (state_at integrate a vs 25 k), (state_at integrate a vs 25 (S k)),
         (restored a), (primed a (ests integrate a vs 25 k)).
  split; [apply after_state_at; lia |].
  split; [apply after_state_at; lia |].
  cbn [state_at net v0 step log].
  split; [rewrite stored_net_at; unfold snap0; by rewrite Ha |].
  split; [by rewrite !stored_net_at |].
  split; [apply trace_head |].
  split; [apply stores_trace |].
  split; [unfold restore; by rewrite stored_net_at |].
  cbn [restored primed neurons count t].
  split; [done |]. split; [by rewrite Ha |]. split; [done |].
  split.
  { unfold set_v, restored, primed. cbn [neurons count t stored].
    by rewrite Hle, Nat.eqb_refl. }
  split; [by apply v_primed |].
  split; [by apply gNa_primed |].
  split; [by apply gates_primed |].
  split; [done |]. split; [done |].
  split; [reflexivity |].
  split; [reflexivity |].
  cbn [net_at].
  rewrite count_run_primed by done.
  split; [reflexivity |].
  split; [symmetry; apply ests_succ |].
  reflexivity.
Qed.

Lemma iteration_starts_from_stored_state_witness :
  exists (st st' : state unit) (n1 n2 : network unit),
    after (sharp 30) tt 9 = Some st
    /\ after (sharp 30) tt 10 = Some st'
    /\ stored (net st) = Some (Snapshot (axon tt) (replicate 100 0%nat) 0)
    /\ stored (net st') = stored (net st)
    /\ (exists tl, log st' = EStore :: tl) /\ stores (log st') = 1%nat
    /\ restore (net st) = Some n1
    /\ neurons n1 = axon tt /\ count n1 = replicate 100 0%nat /\ t n1 = 0
    /\ set_v n1 (v0 st) = Some n2
    /\ v <$> neurons n2 = v0 st
    /\ gNa <$> neurons n2 = gNa <$> axon tt
    /\ gates <$> neurons n2 = gates <$> axon tt
    /\ count n2 = count n1 /\ t n2 = t n1
    /\ net st' = run (sharp 30) 20 n2
    /\ t (net st') == 20
    /\ count (net st')
       = zip_with (fun n x => snd (sharp 30 20 (Neuron (gNa n) x (gates n))))
                  (axon tt) (v0 st)
    /\ v0 st'
       = zip_with (fun x (c : nat) =>
                     if (0 <? c)%nat then x - step st else x + step st)
                  (v0 st) (count (net st'))
    /\ log st' = log st ++ [ERestore; ESetV (v0 st); ERun 20; EReadCount;
                            EReadCount; EAssignRow (9 + 1)].
Proof. apply (iteration_starts_from_stored_state (sharp 30) tt 9). lia. Defined.

(** *** Independence of the segments (C4) *)

(** C4.  Take two groups and two vectors of initial estimates that agree
    on segment [j]: its channel density is [g] and its estimate [x] in
    both.  Then the estimate of segment [j] after [k] iterations is the
    same in both experiments, whatever the other segments are: it is the
    estimate of a segment with density [g] followed on its own. *)
Theorem segments_independent {G : Type}
    (integrate : Q -> neuron G -> neuron G * nat) (rest : G)
    (ga gb : list Q) (va vb : list Q) (s : Q) (j k : nat) (g x : Q) :
  length va = length ga -> length vb = length gb ->
  ga !! j = Some g -> gb !! j = Some g ->
  va !! j = Some x -> vb !! j = Some x ->
  (k <= 10)%nat ->
  exists sa sb : state G,
    search integrate (group rest ga) va s k = Some sa
    /\ search integrate (group rest gb) vb s k = Some sb
    /\ v0 sa !! j = Some (est_at integrate (Neuron g 0 rest) x s k)
    /\ v0 sb !! j = v0 sa !! j.
Proof.
  intros Hla Hlb Hga Hgb Hva Hvb Hk.
  assert (forall gs : list Q, length (group rest gs) = length gs) as Hlen.
  { intros gs. apply length_map. }
  assert (forall gs : list Q, gs !! j = Some g ->
            group rest gs !! j = Some (Neuron g 0 rest)) as Hgrp.
  { intros gs Hg. unfold group. by rewrite list_lookup_fmap, Hg. }
  exists (state_at integrate (group rest ga) va s k),
         (state_at integrate (group rest gb) vb s k).
  split; [apply search_state_at; [by rewrite Hlen | done] |].
  split; [apply search_state_at; [by rewrite Hlen | done] |].
  cbn [state_at v0].
  rewrite (lookup_ests integrate _ va s k j _ x (Hgrp ga Hga) Hva).
  rewrite (lookup_ests integrate _ vb s k j _ x (Hgrp gb Hgb) Hvb).
  done.
Qed.

Lemma segments_independent_witness :
  exists sa sb : state unit,
    search (sharp 30) (group tt [15; 40; 90]) [25; 25; 10] 25 10 = Some sa
    /\ search (sharp 30) (group tt [70; 40]) [60; 25] 25 10 = Some sb
    /\ v0 sa !! 1%nat = Some (est_at (sharp 30) (Neuron 40 0 tt) 25 25 10)
    /\ v0 sb !! 1%nat = v0 sa !! 1%nat.
Proof.
  apply (segments_independent (sharp 30) tt [15; 40; 90] [70; 40]
           [25; 25; 10] [60; 25] 25 1 10 40 25); reflexivity.
Defined.

(** *** The table of estimates (C9) *)

(** C9.  When the loop is over, [estimates] has 11 rows of 100 entries and
    none of them is [nan] any more: row 0 holds 25 mV, row [i] for
    [i = 1..10] holds the estimates as they were after iteration [i], and
    every row was assigned once, in the order 0, 1, ..., 10. *)
Theorem estimates_filled {G : Type}
    (integrate : Q -> neuron G -> neuron G * nat) (rest : G) (i j : nat) :
  (i < 11)%nat -> (j < 100)%nat ->
  exists (st sti : state G) (row : list (option Q)) (q : Q),
    notebook integrate rest = Some st
    /\ length (estimates st) = 11%nat
    /\ estimates st !! i = Some row /\ length row = 100%nat
    /\ row !! j = Some (Some q)
    /\ estimates st !! 0%nat = Some (replicate 100 (Some 25))
    /\ after integrate rest i = Some sti /\ row = Some <$> v0 sti
    /\ rows_assigned (log st) = seq 0 11.
Proof.
  intros Hi Hj.
  set (a := axon rest). set (v := ones25 a).
  assert (length v = length a) as Hl by apply length_ones25.
  exists (state_at integrate a v 25 10), (state_at integrate a v 25 i),
         (Some <$> ests integrate a v 25 i),
         (est_at integrate (Neuron (gNa_expr 100 j) 0 rest) 25 25 i).
  split; [unfold notebook; apply after_state_at; lia |].
  cbn [state_at estimates log v0].
  split; [apply length_table |].
  split; [apply table_row_done; [done | lia | lia] |].
  split; [rewrite length_fmap, length_ests by done; apply length_axon |].
  split.
  { rewrite list_lookup_fmap.
    rewrite (lookup_ests integrate a v 25 i j _ 25
               (lookup_axon rest j Hj) (lookup_ones25 rest j Hj)).
    done. }
  split.
  { rewrite table_row_done by (done || lia).
    rewrite (ests_0 integrate a v 25 Hl). unfold v, ones25, a.
    by rewrite fmap_replicate, length_axon. }
  split; [apply after_state_at; lia |].
  split; [reflexivity |].
  apply rows_assigned_trace.
Qed.

Lemma estimates_filled_witness :
  exists (st sti : state unit) (row : list (option Q)) (q : Q),
    notebook (sharp 30) tt = Some st
    /\ length (estimates st) = 11%nat
    /\ estimates st !! 10%nat = Some row /\ length row = 100%nat
    /\ row !! 99%nat = Some (Some q)
    /\ estimates st !! 0%nat = Some (replicate 100 (Some 25))
    /\ after (sharp 30) tt 10 = Some sti /\ row = Some <$> v0 sti
    /\ rows_assigned (log st) = seq 0 11.
Proof. apply (estimates_filled (sharp 30) tt 10 99); lia. Defined.

(** *** What an iteration changes (C7) *)




(** *** The channel densities (C6) *)

Lemma gNa_expr_100 (i : nat) :
  gNa_expr 100 i == 15 + 85 * inject_Z (Z.of_nat i) * (1 # 100).
Proof. unfold gNa_expr, gNa_min, gNa_max. simpl inject_Z. field. Qed.

(** C6.  Segment [i] of the group has the sodium-channel density
    [gNa_min + (gNa_max - gNa_min)*i/100]; the densities increase strictly
    with the index, so they are pairwise distinct, from 15 mS/cm^2 for
    segment 0 to 99.15 mS/cm^2 for segment 99. *)
Theorem gNa_strictly_increasing {G : Type} (rest : G) (i j : nat) :
  (i < j)%nat -> (j < 100)%nat ->
  length (axon rest) = 100%nat
  /\ gNa <$> axon rest !! i = Some (gNa_expr 100 i)
  /\ gNa <$> axon rest !! j = Some (gNa_expr 100 j)
  /\ gNa_expr 100 i
     == gNa_min + (gNa_max - gNa_min) * inject_Z (Z.of_nat i) / 100
  /\ gNa_expr 100 i < gNa_expr 100 j
  /\ ~ gNa_expr 100 i == gNa_expr 100 j
  /\ gNa_expr 100 0 == 15
  /\ gNa_expr 100 99 == 9915 / 100.
Proof.
  intros Hij Hj.
  assert (gNa_expr 100 i < gNa_expr 100 j) as Hlt.
  { rewrite !gNa_expr_100.
    assert (inject_Z (Z.of_nat i) < inject_Z (Z.of_nat j)) as H
      by (rewrite <- Zlt_Qlt; lia).
    lra. }
  split; [apply length_axon |].
  split; [rewrite lookup_axon by lia; done |].
  split; [rewrite lookup_axon by lia; done |].
  split; [unfold gNa_expr, gNa_min, gNa_max; simpl inject_Z; field |].
  split; [exact Hlt |].
  split; [intros Heq; rewrite Heq in Hlt; by apply Qlt_irrefl in Hlt |].
  split; reflexivity.
Qed.

Lemma gNa_strictly_increasing_witness :
  length (axon tt) = 100%nat
  /\ gNa <$> axon tt !! 10%nat = Some (gNa_expr 100 10)
  /\ gNa <$> axon tt !! 90%nat = Some (gNa_expr 100 90)
  /\ gNa_expr 100 10
     == gNa_min + (gNa_max - gNa_min) * inject_Z (Z.of_nat 10) / 100
  /\ gNa_expr 100 10 < gNa_expr 100 90
  /\ ~ gNa_expr 100 10 == gNa_expr 100 90
  /\ gNa_expr 100 0 == 15
  /\ gNa_expr 100 99 == 9915 / 100.
Proof. apply (gNa_strictly_increasing tt 10 90); lia. Defined.

End BisectionSpec.

(** ** Properties of the pyloric circuit *)

Module PyloricSpec.
Import Pyloric.
Local Open Scope Q_scope.
Local Open Scope string_scope.

(** C8.  The circuit is a group of three neurons labelled ABPD, LP and PY,
    each with its own Calcium target.  For a neuron in any state, the
    conductances are [s = S*(1 - tanh(z))] and [g = G*(1 + tanh(z))], the
    derivative of [z] is [tanh(Ca - Ca_target)/tau_z], and the reset adds
    0.1 to [Ca] and changes nothing else; it is executed on a neuron when it
    spikes and only then. *)
Theorem activity_dependent_conductances (tanh : Q -> Q)
    (rand_w rand_z : nat -> Q) (n : cell) :
  circuit_N = 3%nat
  /\ length (circuit rand_w rand_z) = 3%nat
  /\ c_label <$> circuit rand_w rand_z = [ABPD; LP; PY]
  /\ c_Ca_target <$> circuit rand_w rand_z
     = [48 / 1000; 384 / 10000; 6 / 100]
  /\ value_of tanh n "s" = Some (const_S * (1 - tanh (c_z n)))
  /\ value_of tanh n "g" = Some (const_G * (1 + tanh (c_z n)))
  /\ derivative tanh n "z" = Some (tanh (c_Ca n - c_Ca_target n) / tau_z)
  /\ exec tanh reset n
     = Some (Cell (c_v n) (c_w n) (c_x n) (c_Ca n + 1 / 10) (c_z n)
                  (c_I_fast n) (c_I_slow n) (c_Ca_target n) (c_label n))
  /\ (forall not_refractory : bool,
        fire tanh not_refractory n
        = if above_threshold n && not_refractory
          then (true,
                Some (Cell (c_v n) (c_w n) (c_x n) (c_Ca n + 1 / 10) (c_z n)
                        (c_I_fast n) (c_I_slow n) (c_Ca_target n) (c_label n)))
          else (false, Some n)).
Proof.
  destruct n as [v w x Ca z If Is Ct l].
  do 8 (split; [reflexivity |]).
  intros nr. unfold fire. by destruct (above_threshold _ && nr).
Qed.

(** C10.  The fast condition connects ABPD to LP, ABPD to PY, LP to ABPD,
    LP to PY and PY to LP, and nothing else; these five are the pairs of
    neurons that an assignment to [g_fast] selects, each is selected by one
    assignment, and each ends with a conductance that is not 0.  The slow
    condition connects ABPD to LP and ABPD to PY, and nothing else; each of
    the two is selected by one assignment to [g_slow] and one to [k_2] and
    ends with values that are not 0. *)
Theorem synapses_get_conductances :
  fast_synapses = [(0, 1); (0, 2); (1, 0); (1, 2); (2, 1)]%nat
  /\ (fun ij : nat * nat => (label !! ij.1, label !! ij.2)) <$> fast_synapses
     = [(Some ABPD, Some LP); (Some ABPD, Some PY); (Some LP, Some ABPD);
        (Some LP, Some PY); (Some PY, Some LP)]
  /\ filter (fun ij => hits g_fast_assignments ij <> 0%nat) pairs
     = fast_synapses
  /\ Forall (fun ij => hits g_fast_assignments ij = 1%nat) fast_synapses
  /\ g_fast = [(15 / 1000) * uS; (5 / 1000) * uS; (1 / 100) * uS;
               (2 / 100) * uS; (5 / 1000) * uS]
  /\ Forall (fun q => ~ q == 0) g_fast
  /\ slow_synapses = [(0, 1); (0, 2)]%nat
  /\ (fun ij : nat * nat => (label !! ij.1, label !! ij.2)) <$> slow_synapses
     = [(Some ABPD, Some LP); (Some ABPD, Some PY)]
  /\ Forall (fun ij => hits g_slow_assignments ij = 1%nat
                       /\ hits k_2_assignments ij = 1%nat) slow_synapses
  /\ g_slow = [(25 / 1000) * uS; (15 / 1000) * uS]
  /\ k_2 = [(3 / 100) / ms; (8 / 1000) / ms]
  /\ Forall (fun q => ~ q == 0) (g_slow ++ k_2).
Proof.
  assert (forall l : list Q,
            forallb (fun q => negb (Qeq_bool q 0)) l = true ->
            Forall (fun q => ~ q == 0) l) as Hnz.
  { intros l Hl. apply Forall_forall. intros q Hq Heq.
    apply list_elem_of_In in Hq.
    pose proof (proj1 (forallb_forall _ l) Hl q Hq) as Hb.
    cbv beta in Hb. apply Qeq_bool_iff in Heq. rewrite Heq in Hb.
    discriminate Hb. }
  split; [reflexivity |].
  split; [reflexivity |].
  split; [by vm_compute |].
  split; [repeat constructor |].
  split; [reflexivity |].
  split; [apply Hnz; by vm_compute |].
  split; [reflexivity |].
  split; [reflexivity |].
  split; [repeat constructor |].
  split; [reflexivity |].
  split; [reflexivity |].
  apply Hnz. by vm_compute.
Qed.

End PyloricSpec.

(** ** Further properties of the bisection search *)

Module BisectionExtra.
Import Brian Bisection BisectionSpec.
Local Open Scope Q_scope.

Section Segment.

Context {G : Type}.
Variable integrate : Q -> neuron G -> neuron G * nat.

(** Two estimates that started together are equal or at least four
    current steps apart, and the segment with the lower threshold has the
    lower one. *)
Lemma est_at_ordered (n1 n2 : neuron G) (vs1 vs2 x s : Q) (k : nat) :
  threshold integrate n1 vs1 -> threshold integrate n2 vs2 ->
  vs1 <= vs2 -> 0 < s ->
  est_at integrate n1 x s k == est_at integrate n2 x s k
  \/ est_at integrate n1 x s k + 4 * step_at s k
     <= est_at integrate n2 x s k.
Proof.
  intros H1 H2 Hv Hs. induction k as [|k IH].
  - left. reflexivity.
  - rewrite !est_at_succ. cbn [step_at]. rewrite half_eq.
    pose proof (step_at_pos s k Hs) as Hp.
    set (e1 := est_at integrate n1 x s k) in *.
    set (e2 := est_at integrate n2 x s k) in *.
    pose proof (H1 e1) as T1. pose proof (H2 e2) as T2.
    destruct (update_cases (step_at s k) e1 (spikes_of integrate n1 e1))
      as [[C1 ->]|[C1 ->]];
    destruct (update_cases (step_at s k) e2 (spikes_of integrate n2 e2))
      as [[C2 ->]|[C2 ->]].
    + destruct IH; [left | right]; lra.
    + apply T2 in C2.
      assert (~ vs1 < e1) by (intros Hlt; apply T1 in Hlt; lia).
      destruct IH; [left | right]; lra.
    + destruct IH; right; lra.
    + destruct IH; [left | right]; lra.
Qed.

(** Only whether a segment spiked enters the search, not how often. *)
Lemma est_at_spike_or_not (integrate' : Q -> neuron G -> neuron G * nat)
    (n : neuron G) (x s : Q) (k : nat) :
  (forall (m : neuron G) (u : Q),
     (0 <? spikes_of integrate m u)%nat = (0 <? spikes_of integrate' m u)%nat) ->
  est_at integrate n x s k = est_at integrate' n x s k.
Proof.
  intros Hagree. induction k as [|k IH]; [done |].
  rewrite !est_at_succ, <- IH. unfold update. by rewrite Hagree.
Qed.

Lemma ests_spike_or_not (integrate' : Q -> neuron G -> neuron G * nat)
    (a : list (neuron G)) (v : list Q) (s : Q) (k : nat) :
  (forall (m : neuron G) (u : Q),
     (0 <? spikes_of integrate m u)%nat = (0 <? spikes_of integrate' m u)%nat) ->
  ests integrate a v s k = ests integrate' a v s k.
Proof.
  intros Hagree. unfold ests. revert v.
  induction a as [|n a IH]; intros [|x v]; simpl; try done.
  by rewrite IH, (est_at_spike_or_not integrate' n x s k Hagree).
Qed.

Lemma table_spike_or_not (integrate' : Q -> neuron G -> neuron G * nat)
    (a : list (neuron G)) (v : list Q) (s : Q) (k : nat) :
  (forall (m : neuron G) (u : Q),
     (0 <? spikes_of integrate m u)%nat = (0 <? spikes_of integrate' m u)%nat) ->
  table integrate a v s k = table integrate' a v s k.
Proof.
  intros Hagree. induction k as [|k IH]; cbn [table]; [done |].
  by rewrite IH, (ests_spike_or_not integrate' a v s (S k) Hagree).
Qed.

(** The table has no row for an eleventh iteration. *)
Lemma iteration_overflow (a : list (neuron G)) (st : state G) (i : nat) :
  wf a st -> (10 <= i)%nat -> iteration integrate i st = None.
Proof.
  intros [Hs Hv Hr Hc] Hi. unfold iteration.
  destruct (restore (net st)) as [n1|]; [| done]. cbn [mbind option_bind].
  destruct (set_v n1 (v0 st)) as [n2|]; [| done]. cbn [mbind option_bind].
  destruct (masked_sub _ _ _) as [v1|]; [| done]. cbn [mbind option_bind].
  destruct (masked_add _ _ _) as [v2|]; [| done]. cbn [mbind option_bind].
  unfold set_row. rewrite lookup_ge_None_2 by lia. done.
Qed.

(** [store()] is undone by nothing the notebook does afterwards. *)
Lemma apply_op_stored (o : op) (n n' : network G) :
  apply_op integrate o n = Some n' -> stored n' = stored n.
Proof.
  destruct o as [|vals|d]; simpl.
  - unfold restore. destruct (stored n) as [sn|]; simpl; [| done].
    by intros [= <-].
  - unfold set_v. destruct (_ =? _)%nat; [| done]. by intros [= <-].
  - by intros [= <-].
Qed.

Lemma apply_ops_stored (l : list op) (n n' : network G) :
  apply_ops integrate l n = Some n' -> stored n' = stored n.
Proof.
  revert n. induction l as [|o l IH]; intros n; simpl.
  - by intros [= <-].
  - destruct (apply_op integrate o n) as [n1|] eqn:E; simpl; [| done].
    intros H. rewrite (IH _ H). by eapply apply_op_stored.
Qed.

End Segment.

(** X3.  Estimates keep the order of the thresholds: if the threshold of
    segment [i] is at most the threshold of segment [j], then after every
    iteration the estimate of [i] is at most the estimate of [j]. *)
Theorem estimates_ordered_by_threshold {G : Type}
    (integrate : Q -> neuron G -> neuron G * nat) (rest : G)
    (i j k : nat) (vi vj : Q) :
  (i < 100)%nat -> (j < 100)%nat -> (k <= 10)%nat ->
  threshold integrate (Neuron (gNa_expr 100 i) 0 rest) vi ->
  threshold integrate (Neuron (gNa_expr 100 j) 0 rest) vj ->
  vi <= vj ->
  exists ei ej : Q,
    estimate integrate rest k i = Some ei
    /\ estimate integrate rest k j = Some ej
    /\ ei <= ej.
Proof.
  intros Hi Hj Hk Ti Tj Hv. do 2 eexists.
  split; [by apply estimate_est_at |].
  split; [by apply estimate_est_at |].
  pose proof (step_at_pos 25 k ltac:(lra)) as Hp.
  destruct (est_at_ordered integrate _ _ vi vj 25 25 k Ti Tj Hv ltac:(lra));
    lra.
Qed.

Lemma graded_threshold (n : neuron unit) :
  threshold graded n (45 - gNa n * (1 # 4)).
Proof.
  intros x. unfold spikes_of, graded; simpl.
  destruct (Qle_bool x (45 - gNa n * (1 # 4))) eqn:E; split; intros H.
  - lia.
  - apply Qle_bool_iff in E. lra.
  - apply Qnot_le_lt. intros Hle. apply Qle_bool_iff in Hle. congruence.
  - lia.
Qed.

Lemma estimates_ordered_by_threshold_witness :
  (exists ei ej : Q,
     estimate graded tt 10 80 = Some ei
     /\ estimate graded tt 10 3 = Some ej
     /\ ei <= ej)
  /\ 45 - gNa_expr 100 80 * (1 # 4) < 45 - gNa_expr 100 3 * (1 # 4)
  /\ (exists ei ej : Q,
        estimate graded tt 10 80 = Some ei
        /\ estimate graded tt 10 3 = Some ej
        /\ ei < ej).
Proof.
  split; [| split].
  - apply (estimates_ordered_by_threshold graded tt 80 3 10
             (45 - gNa_expr 100 80 * (1 # 4))
             (45 - gNa_expr 100 3 * (1 # 4)));
      [lia | lia | lia | apply graded_threshold | apply graded_threshold |].
    by vm_compute.
  - by vm_compute.
  - do 2 eexists. split; [by vm_compute |]. split; [by vm_compute |].
    by vm_compute.
Defined.

(** X4.  The search uses only whether a segment spiked, not how many
    spikes it fired: two simulators that agree on spike or no spike lead to
    the same [v0], [step] and [estimates]. *)
Theorem search_uses_spike_or_not {G : Type}
    (integrate integrate' : Q -> neuron G -> neuron G * nat)
    (a : list (neuron G)) (v : list Q) (s : Q) (k : nat) :
  (forall (m : neuron G) (u : Q),
     (0 <? spikes_of integrate m u)%nat = (0 <? spikes_of integrate' m u)%nat) ->
  length v = length a -> (k <= 10)%nat ->
  exists st st' : state G,
    search integrate a v s k = Some st
    /\ search integrate' a v s k = Some st'
    /\ v0 st = v0 st' /\ step st = step st' /\ estimates st = estimates st'.
Proof.
  intros Hagree Hl Hk.
  exists (state_at integrate a v s k), (state_at integrate' a v s k).
  split; [by apply search_state_at |].
  split; [by apply search_state_at |].
  cbn [state_at v0 step estimates].
  split; [by apply ests_spike_or_not |].
  split; [done |]. by apply table_spike_or_not.
Qed.

Lemma search_uses_spike_or_not_witness :
  exists st st' : state unit,
    search (sharp 30) (group tt [15; 40; 90]) [25; 25; 25] 25 10 = Some st
    /\ search (burst 30) (group tt [15; 40; 90]) [25; 25; 25] 25 10 = Some st'
    /\ v0 st = v0 st' /\ step st = step st' /\ estimates st = estimates st'.
Proof.
  apply (search_uses_spike_or_not (sharp 30) (burst 30)
           (group tt [15; 40; 90]) [25; 25; 25] 25 10);
    [| reflexivity | lia].
  intros m u. unfold spikes_of, sharp, burst; simpl.
  by destruct (Qle_bool u 30).
Defined.

(** X5.  [estimates] has room for ten iterations and no more: with more
    than ten iterations the assignment to row [i + 1] fails. *)
Theorem no_eleventh_iteration {G : Type}
    (integrate : Q -> neuron G -> neuron G * nat)
    (a : list (neuron G)) (v : list Q) (s : Q) (k : nat) :
  length v = length a -> (10 < k)%nat ->
  search integrate a v s k = None.
Proof.
  intros Hl Hk.
  pose proof (search_state_at integrate a v s 10 Hl ltac:(lia)) as H10.
  unfold search in *.
  destruct (init a v s) as [st0|]; [| done]. cbn [mbind option_bind] in *.
  replace k with (10 + S (k - 11))%nat by lia.
  rewrite seq_app, for_each_app, H10. cbn [mbind option_bind].
  cbn [seq for_each Nat.add].
  rewrite (iteration_overflow integrate a _ 10
             (state_at_wf integrate a v s 10 Hl)) by lia.
  done.
Qed.

Lemma no_eleventh_iteration_witness :
  search (sharp 30) (group tt [15; 40; 90]) [25; 25; 25] 25 11 = None.
Proof.
  apply (no_eleventh_iteration (sharp 30) (group tt [15; 40; 90])
           [25; 25; 25] 25 11); [reflexivity | lia].
Defined.

(** X6.  Whatever assignments to [v], runs and restores follow a
    [store()], a [restore()] brings back the network as it was stored. *)
Theorem restore_returns_to_store {G : Type}
    (integrate : Q -> neuron G -> neuron G * nat)
    (l : list op) (n n' : network G) :
  apply_ops integrate l (store n) = Some n' ->
  restore n' = Some (store n).
Proof.
  intros H. apply apply_ops_stored in H.
  unfold restore. rewrite H. done.
Qed.

Lemma restore_returns_to_store_witness :
  restore (run (sharp 30) 5
             (run (sharp 30) 20
                (Network (zip_with with_v (group tt [15; 40]) [35; 10])
                   [0%nat; 0%nat] 0
                   (stored (store (SpikeMonitor (group tt [15; 40])))))))
  = Some (store (SpikeMonitor (group tt [15; 40]))).
Proof.
  apply (restore_returns_to_store (sharp 30)
           [OpSetV [35; 10]; OpRun 20; OpRun 5]
           (SpikeMonitor (group tt [15; 40]))).
  reflexivity.
Defined.

(** X7.  The trace plotted for segment [j] is its estimate before the
    first and after each of the ten iterations, and the marker of the lower
    panel, [estimates[-1, j]], is the final [v0[j]] of the line it sits
    on. *)
Theorem plotted_trace {G : Type}
    (integrate : Q -> neuron G -> neuron G * nat) (rest : G) (j : nat) :
  (j < 100)%nat ->
  exists (st : state G) (q : Q),
    notebook integrate rest = Some st
    /\ column (estimates st) j
       = Some ((fun i => estimate integrate rest i j) <$> seq 0 11)
    /\ last_entry (estimates st) j = Some (Some q)
    /\ v0 st !! j = Some q.
Proof.
  intros Hj.
  set (a := axon rest). set (v := ones25 a).
  assert (length v = length a) as Hl by apply length_ones25.
  assert (forall i, ests integrate a v 25 i !! j
            = Some (est_at integrate (Neuron (gNa_expr 100 j) 0 rest) 25 25 i))
    as Hest.
  { intros i. apply lookup_ests; [by apply lookup_axon | by apply lookup_ones25]. }
  exists (state_at integrate a v 25 10),
         (est_at integrate (Neuron (gNa_expr 100 j) 0 rest) 25 25 10).
  split; [unfold notebook; apply after_state_at; lia |].
  cbn [state_at estimates v0].
  split.
  { unfold column. apply mapM_Some_2, Forall2_same_length_lookup_2.
    - by rewrite length_table, length_fmap, length_seq.
    - intros i row y Hrow Hy.
      assert (i < 11)%nat as Hi.
      { apply lookup_lt_Some in Hrow. by rewrite length_table in Hrow. }
      rewrite table_row_done in Hrow by (done || lia).
      rewrite list_lookup_fmap, lookup_seq_lt in Hy by done.
      cbn [fmap option_fmap option_map] in Hy.
      apply (inj Some) in Hrow. apply (inj Some) in Hy. subst row y.
      rewrite list_lookup_fmap, Hest. cbn [fmap option_fmap option_map Nat.add].
      by rewrite estimate_est_at by lia. }
  split; [| apply Hest].
  unfold last_entry. rewrite last_lookup, length_table. simpl Init.Nat.pred.
  rewrite table_row_done by (done || lia). cbn [mbind option_bind].
  by rewrite list_lookup_fmap, Hest.
Qed.

Lemma plotted_trace_witness :
  exists (st : state unit) (q : Q),
    notebook (sharp 30) tt = Some st
    /\ column (estimates st) 50
       = Some ((fun i => estimate (sharp 30) tt i 50) <$> seq 0 11)
    /\ last_entry (estimates st) 50 = Some (Some q)
    /\ v0 st !! 50%nat = Some q.
Proof. apply (plotted_trace (sharp 30) tt 50). lia. Defined.

End BisectionExtra.

(** ** Further properties of the pyloric circuit *)

Module PyloricExtra.
Import Pyloric.
Local Open Scope Q_scope.
Local Open Scope string_scope.

(** *** Connecting by condition *)

Lemma elem_of_connect (cond : Z -> Z -> bool) (lab : list Z) (i j : nat) :
  (i, j) ∈ connect cond lab
  <-> exists p q : Z, lab !! i = Some p /\ lab !! j = Some q /\ cond p q = true.
Proof.
  unfold connect. rewrite list_elem_of_bind. split.
  - intros (i' & Hin & _). apply list_elem_of_bind in Hin.
    destruct Hin as (j' & Hin & _).
    destruct (lab !! i') as [p|] eqn:Ei; [| by apply elem_of_nil in Hin].
    destruct (lab !! j') as [q|] eqn:Ej; [| by apply elem_of_nil in Hin].
    destruct (cond p q) eqn:Ec; [| by apply elem_of_nil in Hin].
    apply list_elem_of_singleton in Hin. injection Hin as -> ->.
    by exists p, q.
  - intros (p & q & Hi & Hj & Hc).
    exists i. split; [| apply elem_of_seq; apply lookup_lt_Some in Hi; lia].
    apply list_elem_of_bind. exists j.
    split; [| apply elem_of_seq; apply lookup_lt_Some in Hj; lia].
    rewrite Hi, Hj, Hc. by apply list_elem_of_singleton.
Qed.

Lemma NoDup_connect (cond : Z -> Z -> bool) (lab : list Z) :
  NoDup (connect cond lab).
Proof.
  unfold connect. apply NoDup_bind; [| | apply NoDup_seq].
  - intros i1 i2 [i j] _ _ H1 H2.
    apply list_elem_of_bind in H1. destruct H1 as (j1 & H1 & _).
    apply list_elem_of_bind in H2. destruct H2 as (j2 & H2 & _).
    destruct (lab !! i1), (lab !! j1); try by apply elem_of_nil in H1.
    destruct (lab !! i2), (lab !! j2); try by apply elem_of_nil in H2.
    destruct (cond _ _); [| by apply elem_of_nil in H1].
    destruct (cond _ _); [| by apply elem_of_nil in H2].
    apply list_elem_of_singleton in H1, H2. congruence.
  - intros i _. apply NoDup_bind; [| | apply NoDup_seq].
    + intros j1 j2 [i' j] _ _ H1 H2.
      destruct (lab !! i); [| by apply elem_of_nil in H1].
      destruct (lab !! j1); [| by apply elem_of_nil in H1].
      destruct (lab !! j2); [| by apply elem_of_nil in H2].
      destruct (cond _ _); [| by apply elem_of_nil in H1].
      destruct (cond _ _); [| by apply elem_of_nil in H2].
      apply list_elem_of_singleton in H1, H2. congruence.
    + intros j _. destruct (lab !! i), (lab !! j); try apply NoDup_nil_2.
      destruct (cond _ _); [apply NoDup_singleton | apply NoDup_nil_2].
Qed.

(** X9.  Whatever the labels of the group are, the fast condition never
    connects a neuron to itself, and every pair the slow condition connects
    is also connected by a fast synapse. *)
Theorem slow_within_fast_no_autapse (lab : list Z) :
  Forall (fun ij : nat * nat => ij.1 <> ij.2) (connect fast_condition lab)
  /\ connect slow_condition lab ⊆ connect fast_condition lab.
Proof.
  split.
  - apply Forall_forall. intros [i j] Hin. simpl.
    apply elem_of_connect in Hin. destruct Hin as (p & q & Hi & Hj & Hc).
    intros ->. rewrite Hi in Hj. injection Hj as ->.
    unfold fast_condition in Hc. by rewrite Z.eqb_refl in Hc.
  - intros [i j] Hin.
    apply elem_of_connect in Hin. destruct Hin as (p & q & Hi & Hj & Hc).
    apply elem_of_connect. exists p, q. split; [done |]. split; [done |].
    unfold slow_condition in Hc. unfold fast_condition.
    apply andb_true_iff in Hc. destruct Hc as [Hp Hq].
    apply Z.eqb_eq in Hp. subst p.
    destruct (q =? ABPD)%Z eqn:Eq; [done |].
    assert ((ABPD =? q)%Z = false) as Eq' by (rewrite Z.eqb_sym; exact Eq).
    rewrite Eq'. reflexivity.
Qed.

(** X10.  The label numbers are arbitrary: with any three different
    numbers for ABPD, LP and PY that fit a 32-bit integer, the two
    conditions create the same synapses as with 0, 1 and 2. *)
Theorem labels_are_arbitrary (abpd lp py : Z) :
  int32 abpd -> int32 lp -> int32 py ->
  abpd <> lp -> abpd <> py -> lp <> py ->
  connect (fast_condition_for abpd py) [abpd; lp; py] = fast_synapses
  /\ connect (slow_condition_for abpd) [abpd; lp; py] = slow_synapses
  /\ connect (fast_condition_for ABPD PY) label = fast_synapses
  /\ connect (slow_condition_for ABPD) label = slow_synapses.
Proof.
  intros _ _ _ H1 H2 H3.
  assert ((abpd =? lp) = false)%Z as E1 by by apply Z.eqb_neq.
  assert ((abpd =? py) = false)%Z as E2 by by apply Z.eqb_neq.
  assert ((lp =? py) = false)%Z as E3 by by apply Z.eqb_neq.
  assert ((lp =? abpd) = false)%Z as E4 by (apply Z.eqb_neq; congruence).
  assert ((py =? abpd) = false)%Z as E5 by (apply Z.eqb_neq; congruence).
  assert ((py =? lp) = false)%Z as E6 by (apply Z.eqb_neq; congruence).
  split; [| split; [| split; reflexivity]].
  - unfold connect, fast_condition_for. cbn -[Z.eqb].
    rewrite !Z.eqb_refl, E1, E2, E3, E4, E5, E6. reflexivity.
  - unfold connect, slow_condition_for. cbn -[Z.eqb].
    rewrite !Z.eqb_refl, E4, E5. reflexivity.
Qed.

Lemma labels_are_arbitrary_witness :
  connect (fast_condition_for 7 (- (3))) [7; 12; - (3)]%Z = fast_synapses
  /\ connect (slow_condition_for 7) [7; 12; - (3)]%Z = slow_synapses
  /\ connect (fast_condition_for ABPD PY) label = fast_synapses
  /\ connect (slow_condition_for ABPD) label = slow_synapses.
Proof.
  apply (labels_are_arbitrary 7 12 (- (3))); unfold int32; lia.
Defined.

(** *** Initial state and regulation *)

Lemma nA_value : nA == 1 # 1000000000.
Proof. reflexivity. Qed.

Lemma tenth_value : 1 / 10 == 1 # 10.
Proof. reflexivity. Qed.

Lemma fifth_value : 2 / 10 == 1 # 5.
Proof. reflexivity. Qed.



Lemma tau_z_pos : 0 < tau_z.
Proof. reflexivity. Qed.

(** X11.  As long as [rand()] returns numbers in [0, 1), every neuron
    starts at [v = v_r] with [w] in (-5 nA, 0], [z] in [-0.1, 0.1) and no
    Calcium signal. *)
Theorem initial_state_in_range (rand_w rand_z : nat -> Q) :
  (forall i : nat, 0 <= rand_w i /\ rand_w i < 1) ->
  (forall i : nat, 0 <= rand_z i /\ rand_z i < 1) ->
  length (circuit rand_w rand_z) = 3%nat
  /\ Forall (fun c : cell =>
               c_v c = v_r
               /\ - (5) * nA < c_w c /\ c_w c <= 0
               /\ - (1 / 10) <= c_z c /\ c_z c < 1 / 10
               /\ c_Ca c = 0 /\ c_x c = 0)
            (circuit rand_w rand_z).
Proof.
  intros Hw Hz. split; [reflexivity |].
  assert (forall i : nat,
            - (5) * nA < - (5) * nA * rand_w i /\ - (5) * nA * rand_w i <= 0)
    as Hw'.
  { intros i. destruct (Hw i). rewrite nA_value. split; nra. }
  assert (forall i : nat,
            - (1 / 10) <= rand_z i * (2 / 10) - 1 / 10
            /\ rand_z i * (2 / 10) - 1 / 10 < 1 / 10) as Hz'.
  { intros i. destruct (Hz i). rewrite tenth_value, fifth_value. split; lra. }
  unfold circuit. cbn [imap zip zip_with label Ca_target fst snd compose].
  repeat (apply Forall_cons; split;
          [split; [reflexivity |]; split; [apply Hw' |]; split; [apply Hw' |];
           split; [apply Hz' |]; split; [apply Hz' |]; split; reflexivity |]).
  apply Forall_nil_2.
Qed.

Lemma initial_state_in_range_witness :
  length (circuit (fun i => 1 # 2) (fun i => 3 # 4)) = 3%nat
  /\ Forall (fun c : cell =>
               c_v c = v_r
               /\ - (5) * nA < c_w c /\ c_w c <= 0
               /\ - (1 / 10) <= c_z c /\ c_z c < 1 / 10
               /\ c_Ca c = 0 /\ c_x c = 0)
            (circuit (fun i => 1 # 2) (fun i => 3 # 4)).
Proof.
  apply (initial_state_in_range (fun i => 1 # 2) (fun i => 3 # 4)).
  - intros i. split; [discriminate | reflexivity].
  - intros i. split; [discriminate | reflexivity].
Defined.



(** X13.  For a [tanh] that keeps the sign of its argument, [z] rises
    while the Calcium signal is above the neuron's target and falls while
    it is below. *)
Theorem regulation_follows_calcium (tanh : Q -> Q) (n : cell) :
  (forall x : Q, 0 < x -> 0 < tanh x) ->
  (forall x : Q, x < 0 -> tanh x < 0) ->
  exists dz : Q,
    derivative tanh n "z" = Some dz
    /\ (c_Ca_target n < c_Ca n -> 0 < dz)
    /\ (c_Ca n < c_Ca_target n -> dz < 0).
Proof.
  intros Hpos Hneg.
  exists (tanh (c_Ca n - c_Ca_target n) / tau_z).
  split; [by destruct n |].
  pose proof (Qinv_lt_0_compat tau_z tau_z_pos) as Hinv.
  unfold Qdiv. split; intros Hc.
  - apply Qmult_lt_0_compat; [apply Hpos; lra | exact Hinv].
  - assert (tanh (c_Ca n - c_Ca_target n) < 0) as Ht by (apply Hneg; lra).
    nra.
Qed.

Lemma regulation_follows_calcium_witness :
  exists dz : Q,
    derivative (fun x => x) (Cell v_r 0 0 (1 # 10) 0 0 0 (48 / 1000) ABPD) "z"
      = Some dz
    /\ (c_Ca_target (Cell v_r 0 0 (1 # 10) 0 0 0 (48 / 1000) ABPD)
          < c_Ca (Cell v_r 0 0 (1 # 10) 0 0 0 (48 / 1000) ABPD) -> 0 < dz)
    /\ (c_Ca (Cell v_r 0 0 (1 # 10) 0 0 0 (48 / 1000) ABPD)
          < c_Ca_target (Cell v_r 0 0 (1 # 10) 0 0 0 (48 / 1000) ABPD)
        -> dz < 0).
Proof.
  apply (regulation_follows_calcium (fun x => x)
           (Cell v_r 0 0 (1 # 10) 0 0 0 (48 / 1000) ABPD)); intros x Hx; exact Hx.
Defined.

(** X14.  Every name the model equations use is defined: for a neuron in
    any state each differential equation has a derivative, each
    subexpression a value and each parameter a stored value.  A name that
    is not an equation has neither a derivative nor a value. *)
Theorem equations_closed (tanh : Q -> Q) (n : cell) :
  Forall (fun e : equation =>
            match sort e with
            | DifferentialEq => is_Some (derivative tanh n (name e))
            | SubexpressionEq => is_Some (value_of tanh n (name e))
            | ParameterEq => is_Some (variable n (name e))
            end) eqs
  /\ (forall x : string,
        find_eq eqs x = None ->
        derivative tanh n x = None /\ value_of tanh n x = None).
Proof.
  split.
  - destruct n as [v w x Ca z If Is Ct l].
    repeat (apply Forall_cons; split; [by eexists |]). apply Forall_nil_2.
  - intros x Hx. unfold derivative, value_of. by rewrite Hx.
Qed.

Lemma equations_closed_witness :
  derivative (fun x => x) (Cell v_r 0 0 0 0 0 0 (48 / 1000) ABPD) "m_slow" = None
  /\ value_of (fun x => x) (Cell v_r 0 0 0 0 0 0 (48 / 1000) ABPD) "m_slow" = None.
Proof.
  apply (equations_closed (fun x => x) (Cell v_r 0 0 0 0 0 0 (48 / 1000) ABPD)).
  reflexivity.
Defined.

(** *** Synaptic currents *)

Lemma summed_ind (P : Q -> Prop) (syn : list (nat * nat)) (contrib : list Q)
    (j : nat) :
  P 0 -> (forall a b : Q, P a -> P b -> P (a + b)) ->
  (forall (idx : nat) (ij : nat * nat) (c : Q),
     syn !! idx = Some ij -> contrib !! idx = Some c -> ij.2 = j -> P c) ->
  P (summed syn contrib j).
Proof.
  intros H0 Hadd. unfold summed. revert contrib.
  induction syn as [|ij syn IH]; intros [|c contrib] Hc; simpl; try exact H0.
  destruct (ij.2 =? j)%nat eqn:E; simpl.
  - apply Hadd.
    + apply (Hc 0%nat ij c); [done | done | by apply Nat.eqb_eq].
    + apply IH. intros idx ij' c'. apply (Hc (S idx)).
  - apply IH. intros idx ij' c'. apply (Hc (S idx)).
Qed.

Lemma g_fast_nonneg : Forall (fun g : Q => 0 <= g) g_fast.
Proof.
  assert (g_fast = [(15 / 1000) * uS; (5 / 1000) * uS; (1 / 100) * uS;
                    (2 / 100) * uS; (5 / 1000) * uS]) as -> by reflexivity.
  repeat (apply Forall_cons; split; [discriminate |]). apply Forall_nil_2.
Qed.

Lemma fast_current_sign (exp : Q -> Q) (g v_pre v_post : Q) :
  (forall x : Q, 0 < exp x) -> 0 <= g ->
  (E_syn <= v_post -> 0 <= fast_current exp g v_pre v_post)
  /\ (v_post <= E_syn -> fast_current exp g v_pre v_post <= 0).
Proof.
  intros Hexp Hg. unfold fast_current, Qdiv.
  pose proof (Hexp (s_fast * (V_fast - v_pre))) as He.
  assert (0 < / (1 + exp (s_fast * (V_fast - v_pre)))) as Hinv
    by (apply Qinv_lt_0_compat; lra).
  split; intros Hv.
  - apply Qmult_le_0_compat; [apply Qmult_le_0_compat; lra | lra].
  - assert (g * (v_post - E_syn) <= 0) as Hle by nra.
    set (p := g * (v_post - E_syn)) in *.
    set (i := / (1 + exp (s_fast * (V_fast - v_pre)))) in *.
    nra.
Qed.

(** X15.  With a positive exponential, the fast synaptic current into a
    neuron has the sign of [v_post - E_syn]: it is not negative while the
    neuron is at or above the reversal potential and not positive while it
    is at or below, whatever the other neurons do. *)
Theorem fast_current_pulls_to_E_syn (exp : Q -> Q) (vs : list Q) (j : nat)
    (vj : Q) :
  (forall x : Q, 0 < exp x) -> vs !! j = Some vj ->
  (E_syn <= vj -> 0 <= I_fast_post exp vs j)
  /\ (vj <= E_syn -> I_fast_post exp vs j <= 0).
Proof.
  intros Hexp Hj.
  assert (forall (idx : nat) (ij : nat * nat) (c : Q),
            fast_synapses !! idx = Some ij ->
            fast_contrib exp vs !! idx = Some c -> ij.2 = j ->
            (E_syn <= vj -> 0 <= c) /\ (vj <= E_syn -> c <= 0)) as Hc.
  { intros idx ij c Hij Hcontrib Hpost. unfold fast_contrib in Hcontrib.
    rewrite list_lookup_imap, Hij in Hcontrib.
    cbn [fmap option_fmap option_map] in Hcontrib.
    apply (inj Some) in Hcontrib. subst c. rewrite Hpost, Hj.
    destruct (g_fast !! idx) as [g|] eqn:Eg; [| split; lra].
    destruct (vs !! ij.1) as [v_pre|]; [| split; lra].
    apply fast_current_sign; [done |].
    eapply (proj1 (Forall_lookup _ _) g_fast_nonneg); eauto. }
  unfold I_fast_post. split; intros Hv.
  - apply (summed_ind (fun q => 0 <= q)); [lra | intros; lra |].
    intros idx ij c H1 H2 H3. by apply (Hc idx ij c).
  - apply (summed_ind (fun q => q <= 0)); [lra | intros; lra |].
    intros idx ij c H1 H2 H3. by apply (Hc idx ij c).
Qed.

Lemma fast_current_pulls_to_E_syn_witness :
  (E_syn <= - (40) * mV
   -> 0 <= I_fast_post (fun x => 1 + x * x)
             [- (50) * mV; - (40) * mV; - (60) * mV] 1)
  /\ (- (40) * mV <= E_syn
      -> I_fast_post (fun x => 1 + x * x)
           [- (50) * mV; - (40) * mV; - (60) * mV] 1 <= 0).
Proof.
  apply (fast_current_pulls_to_E_syn (fun x => 1 + x * x)
           [- (50) * mV; - (40) * mV; - (60) * mV] 1 (- (40) * mV));
    [| reflexivity].
  intros x. nra.
Defined.

(** X16.  AB/PD receives no slow synapse, so its slow current is 0 in
    every state; the slow current into LP and into PY is the current of the
    one slow synapse from AB/PD that targets it. *)
Theorem slow_current_targets (v_abpd v_lp v_py m_lp m_py : Q) :
  I_slow_post [v_abpd; v_lp; v_py] [m_lp; m_py] 0 = 0
  /\ I_slow_post [v_abpd; v_lp; v_py] [m_lp; m_py] 1
     == slow_current ((25 / 1000) * uS) m_lp v_lp
  /\ I_slow_post [v_abpd; v_lp; v_py] [m_lp; m_py] 2
     == slow_current ((15 / 1000) * uS) m_py v_py.
Proof.
  split; [reflexivity |].
  split.
  - change (I_slow_post [v_abpd; v_lp; v_py] [m_lp; m_py] 1)
      with (slow_current ((25 / 1000) * uS) m_lp v_lp + 0). ring.
  - change (I_slow_post [v_abpd; v_lp; v_py] [m_lp; m_py] 2)
      with (slow_current ((15 / 1000) * uS) m_py v_py + 0). ring.
Qed.





End PyloricExtra.

(** ** Properties of the loop in binary64 *)

Module Float64Spec.
Import PrimFloat.
Local Open Scope float_scope.

Lemma masked_updates64 (d : float) (a : list float) (c : list nat) :
  zip_with (fun x (b : bool) => if b then x + d else x)
    (zip_with (fun x (b : bool) => if b then x - d else x) a
       (Bisection.count_gt0 c))
    (Bisection.count_eq0 c)
  = zip_with (Float64.update d) a c.
Proof.
  revert c. induction a as [|x a IH]; intros [|k c]; simpl; try done.
  rewrite IH. by destruct k.
Qed.

Section Loop.

Variable spike : nat -> float -> nat.

Lemma length_counts (v : list float) :
  length (Float64.counts spike v) = length v.
Proof. apply length_imap. Qed.

(** The body never fails, and corrects every entry once. *)
Lemma iteration_updates (v : list float) (s : float) :
  Float64.iteration spike (v, s)
  = Some (zip_with (Float64.update s) v (Float64.counts spike v), s / 2).
Proof.
  unfold Float64.iteration, Float64.masked_sub, Float64.masked_add.
  cbn [fst snd].
  rewrite BisectionSpec.length_count_gt0, length_counts, Nat.eqb_refl.
  cbn [mbind option_bind].
  rewrite BisectionSpec.length_count_eq0, length_zip_with.
  rewrite BisectionSpec.length_count_gt0, length_counts.
  rewrite Nat.min_id, Nat.eqb_refl. cbn [mbind option_bind].
  by rewrite masked_updates64.
Qed.

Lemma lookup_updated (v : list float) (s : float) (j : nat) (x : float) :
  v !! j = Some x ->
  zip_with (Float64.update s) v (Float64.counts spike v) !! j
  = Some (Float64.update s x (spike j x)).
Proof.
  intros Hx. unfold Float64.counts.
  rewrite lookup_zip_with, Hx. cbn [mbind option_bind].
  by rewrite list_lookup_imap, Hx.
Qed.

Lemma update_reach (k : nat) (x : float) (c : nat) :
  x ∈ Float64.reach k ->
  Float64.update (Float64.step_at k) x c ∈ Float64.reach (S k).
Proof.
  intros Hx. cbn [Float64.reach]. apply list_elem_of_bind. exists x.
  split; [| done]. unfold Float64.update.
  destruct (0 <? c)%nat; [apply list_elem_of_here |].
  apply list_elem_of_further, list_elem_of_here.
Qed.

(** After [k] iterations the step has been halved [k] times, and every
    entry is one of the values of [reach k]. *)
Lemma after_reach (k : nat) :
  exists v : list float,
    Float64.after spike k = Some (v, Float64.step_at k)
    /\ length v = 100%nat
    /\ Forall (fun x => x ∈ Float64.reach k) v.
Proof.
  induction k as [|k (v & Hv & Hl & Hr)].
  - eexists. split; [reflexivity |]. split; [apply length_replicate |].
    apply Forall_replicate. apply list_elem_of_here.
  - eexists. cbn [Float64.after]. rewrite Hv. cbn [mbind option_bind].
    rewrite iteration_updates. split; [reflexivity |].
    split; [by rewrite length_zip_with, length_counts, Nat.min_id |].
    apply Forall_lookup. intros i y Hy.
    apply lookup_zip_with_Some in Hy. destruct Hy as (x & c & -> & Hx & _).
    apply update_reach. eapply (proj1 (Forall_lookup _ _) Hr); eauto.
Qed.

End Loop.

(** *** Facts found by running through all spike histories *)

Lemma forallb_seq (P : nat -> bool) (n k : nat) :
  forallb P (seq 0 n) = true -> (k < n)%nat -> P k = true.
Proof.
  intros H Hk. apply (proj1 (forallb_forall P (seq 0 n)) H).
  apply in_seq. lia.
Qed.

Lemma forallb_elem_of (P : float -> bool) (l : list float) (x : float) :
  forallb P l = true -> x ∈ l -> P x = true.
Proof.
  intros H Hx. apply (proj1 (forallb_forall P l) H). by apply list_elem_of_In.
Qed.

Lemma reach_in_range (k : nat) (x : float) :
  (k <= 10)%nat -> x ∈ Float64.reach k -> Float64.in_range x = true.
Proof.
  intros Hk. apply forallb_elem_of.
  apply (forallb_seq (fun k => forallb Float64.in_range (Float64.reach k)) 11);
    [by vm_compute | lia].
Qed.

Lemma reach_moves (k : nat) (x : float) :
  (k < 10)%nat -> x ∈ Float64.reach k ->
  Float64.moves (Float64.step_at k) x = true.
Proof.
  intros Hk. apply forallb_elem_of.
  by apply (forallb_seq
              (fun k => forallb (Float64.moves (Float64.step_at k))
                          (Float64.reach k)) 10);
    [vm_compute |].
Qed.

Lemma up_below (k : nat) :
  (k <= 10)%nat -> (Float64.up k <? 75 * Float64.mV) = true.
Proof.
  intros Hk.
  apply (forallb_seq (fun k => Float64.up k <? 75 * Float64.mV) 11);
    [by vm_compute | lia].
Qed.

Lemma down_above (k : nat) :
  (k <= 10)%nat -> (- (25 * Float64.mV) <? Float64.down k) = true.
Proof.
  intros Hk.
  apply (forallb_seq (fun k => - (25 * Float64.mV) <? Float64.down k) 11);
    [by vm_compute | lia].
Qed.

Lemma up_near (k : nat) :
  (k <= 10)%nat ->
  Float64.near (Float64.up k) (75 * Float64.mV - 2 * Float64.step_at k) = true.
Proof.
  intros Hk.
  apply (forallb_seq
           (fun k => Float64.near (Float64.up k)
                       (75 * Float64.mV - 2 * Float64.step_at k)) 11);
    [by vm_compute | lia].
Qed.

Lemma down_near (k : nat) :
  (k <= 10)%nat ->
  Float64.near (Float64.down k) (- (25 * Float64.mV) + 2 * Float64.step_at k)
  = true.
Proof.
  intros Hk.
  apply (forallb_seq
           (fun k => Float64.near (Float64.down k)
                       (- (25 * Float64.mV) + 2 * Float64.step_at k)) 11);
    [by vm_compute | lia].
Qed.

Section Saturation.

Variable spike : nat -> float -> nat.

(** The entry of a segment that never spikes, and of one that always
    does. *)
Lemma estimate_silent (j k : nat) :
  (j < 100)%nat -> (k <= 10)%nat ->
  (forall x : float, (x <? 75 * Float64.mV) = true -> spike j x = 0%nat) ->
  Float64.estimate spike k j = Some (Float64.up k).
Proof.
  intros Hj Hk Hn. unfold Float64.estimate. induction k as [|k IH].
  - cbn [Float64.after mbind option_bind fst]. by apply lookup_replicate_2.
  - specialize (IH ltac:(lia)).
    destruct (after_reach spike k) as (v & Hv & _ & _).
    cbn [Float64.after]. rewrite Hv in *. cbn [mbind option_bind fst] in *.
    rewrite iteration_updates. cbn [mbind option_bind fst].
    rewrite (lookup_updated spike v _ j _ IH), Hn by (apply up_below; lia).
    reflexivity.
Qed.

Lemma estimate_firing (j k : nat) :
  (j < 100)%nat -> (k <= 10)%nat ->
  (forall x : float,
     (- (25 * Float64.mV) <? x) = true -> (0 < spike j x)%nat) ->
  Float64.estimate spike k j = Some (Float64.down k).
Proof.
  intros Hj Hk Hn. unfold Float64.estimate. induction k as [|k IH].
  - cbn [Float64.after mbind option_bind fst]. by apply lookup_replicate_2.
  - specialize (IH ltac:(lia)).
    destruct (after_reach spike k) as (v & Hv & _ & _).
    cbn [Float64.after]. rewrite Hv in *. cbn [mbind option_bind fst] in *.
    rewrite iteration_updates. cbn [mbind option_bind fst].
    rewrite (lookup_updated spike v _ j _ IH). unfold Float64.update.
    pose proof (Hn (Float64.down k) (down_above k ltac:(lia))) as Hc.
    apply Nat.ltb_lt in Hc. by rewrite Hc.
Qed.

End Saturation.

(** *** The masked updates (C5) *)

(** C5, as stated, fails: with a threshold of 30 mV the second iteration
    takes the estimate from 0.05 V to 0.05 - 0.0125 V, which is rounded to
    0.037500000000000006 V; the change is not the step 0.0125 V. *)
Lemma step_is_rounded : ~ Float64.changes_by_exactly_step.
Proof.
  intros H.
  pose (sp := Float64.sharp (30 * Float64.mV)).
  pose (x := Float64.v0_init + Float64.step_init).
  pose (x' := x - Float64.step_init / 2).
  specialize (H sp 1%nat 0%nat
                (replicate 100 x, Float64.step_init / 2)
                (replicate 100 x', Float64.step_init / 2 / 2) x x').
  assert ((abs (x' - x) =? Float64.step_init / 2) = true) as Hf.
  { apply H; [lia | by vm_compute | by vm_compute | done | done]. }
  vm_compute in Hf. discriminate Hf.
Qed.

(** C5, amended.  In every iteration the masks [S.count > 0] and
    [S.count == 0] split the 100 segments, so each entry of [v0] is updated
    once: it becomes the binary64 difference of the entry and the step if
    the segment spiked and their binary64 sum otherwise, which is strictly
    below, respectively above, the entry.  After [k] iterations the step is
    [25 mV] halved [k] times and every entry lies strictly between -25 mV
    and 75 mV. *)
Theorem masked_update_rounded (spike : nat -> float -> nat) (k j : nat) :
  (k <= 10)%nat -> (j < 100)%nat ->
  exists (v : list float) (x : float),
    Float64.after spike k = Some (v, Float64.step_at k)
    /\ length v = 100%nat /\ v !! j = Some x
    /\ Float64.in_range x = true
    /\ ((k < 10)%nat ->
        exists (v' : list float) (x' : float),
          Float64.after spike (S k) = Some (v', Float64.step_at k / 2)
          /\ zip_with xorb (Bisection.count_gt0 (Float64.counts spike v))
                           (Bisection.count_eq0 (Float64.counts spike v))
             = replicate 100 true
          /\ v' !! j = Some x'
          /\ x' = (if (0 <? spike j x)%nat
                   then x - Float64.step_at k else x + Float64.step_at k)
          /\ (if (0 <? spike j x)%nat then x' <? x else x <? x') = true).
Proof.
  intros Hk Hj.
  destruct (after_reach spike k) as (v & Hv & Hl & Hr).
  destruct (lookup_lt_is_Some_2 v j) as [x Hx]; [lia |].
  assert (x ∈ Float64.reach k) as Hin
    by (eapply (proj1 (Forall_lookup _ _) Hr); eauto).
  exists v, x. split; [done |]. split; [done |]. split; [done |].
  split; [by apply (reach_in_range k) |].
  intros Hk'.
  exists (zip_with (Float64.update (Float64.step_at k)) v
            (Float64.counts spike v)),
         (Float64.update (Float64.step_at k) x (spike j x)).
  split.
  { cbn [Float64.after]. rewrite Hv. cbn [mbind option_bind].
    apply iteration_updates. }
  split.
  { by rewrite BisectionSpec.masks_partition, length_counts, Hl. }
  split; [by apply lookup_updated |].
  split; [reflexivity |].
  pose proof (reach_moves k x Hk' Hin) as Hm. unfold Float64.moves in Hm.
  apply andb_true_iff in Hm. destruct Hm as [Hdown Hup].
  unfold Float64.update. by destruct (0 <? spike j x)%nat.
Qed.

Lemma masked_update_rounded_witness :
  exists (v : list float) (x : float),
    Float64.after (Float64.sharp (30 * Float64.mV)) 1 = Some (v, Float64.step_at 1)
    /\ length v = 100%nat /\ v !! 7%nat = Some x
    /\ Float64.in_range x = true
    /\ ((1 < 10)%nat ->
        exists (v' : list float) (x' : float),
          Float64.after (Float64.sharp (30 * Float64.mV)) 2
          = Some (v', Float64.step_at 1 / 2)
          /\ zip_with xorb
               (Bisection.count_gt0
                  (Float64.counts (Float64.sharp (30 * Float64.mV)) v))
               (Bisection.count_eq0
                  (Float64.counts (Float64.sharp (30 * Float64.mV)) v))
             = replicate 100 true
          /\ v' !! 7%nat = Some x'
          /\ x' = (if (0 <? Float64.sharp (30 * Float64.mV) 7 x)%nat
                   then x - Float64.step_at 1 else x + Float64.step_at 1)
          /\ (if (0 <? Float64.sharp (30 * Float64.mV) 7 x)%nat
              then x' <? x else x <? x') = true).
Proof.
  apply (masked_update_rounded (Float64.sharp (30 * Float64.mV)) 1 7); lia.
Defined.

(** *** Segments that never or always spike *)

(** X1.  A segment that does not spike from any potential below 75 mV is
    corrected upwards in every iteration: after [k] iterations its estimate
    is the rounded sum of 25 mV and the first [k] steps, which is below
    75 mV and within 2^-55 V of [75*mV - 2*step]. *)
Theorem silent_segment_saturates (spike : nat -> float -> nat) (j k : nat) :
  (j < 100)%nat -> (k <= 10)%nat ->
  (forall x : float, (x <? 75 * Float64.mV) = true -> spike j x = 0%nat) ->
  exists e : float,
    Float64.estimate spike k j = Some e
    /\ e = Float64.up k
    /\ (e <? 75 * Float64.mV) = true
    /\ Float64.near e (75 * Float64.mV - 2 * Float64.step_at k) = true.
Proof.
  intros Hj Hk Hn. exists (Float64.up k).
  split; [by apply estimate_silent |]. split; [done |].
  split; [by apply up_below | by apply up_near].
Qed.

Lemma silent_segment_saturates_witness :
  exists e : float,
    Float64.estimate (Float64.silent_below (75 * Float64.mV)) 10 42 = Some e
    /\ e = Float64.up 10
    /\ (e <? 75 * Float64.mV) = true
    /\ Float64.near e (75 * Float64.mV - 2 * Float64.step_at 10) = true.
Proof.
  apply (silent_segment_saturates
           (Float64.silent_below (75 * Float64.mV)) 42 10); [lia | lia |].
  intros x Hx. unfold Float64.silent_below. by rewrite Hx.
Defined.

(** X2.  A segment that spikes from every potential above -25 mV is
    corrected downwards in every iteration: after [k] iterations its
    estimate is 25 mV less the first [k] steps, rounded after every
    subtraction, which is above -25 mV and within 2^-55 V of
    [-25*mV + 2*step]. *)
Theorem firing_segment_saturates (spike : nat -> float -> nat) (j k : nat) :
  (j < 100)%nat -> (k <= 10)%nat ->
  (forall x : float,
     (- (25 * Float64.mV) <? x) = true -> (0 < spike j x)%nat) ->
  exists e : float,
    Float64.estimate spike k j = Some e
    /\ e = Float64.down k
    /\ (- (25 * Float64.mV) <? e) = true
    /\ Float64.near e (- (25 * Float64.mV) + 2 * Float64.step_at k) = true.
Proof.
  intros Hj Hk Hn. exists (Float64.down k).
  split; [by apply estimate_firing |]. split; [done |].
  split; [by apply down_above | by apply down_near].
Qed.

Lemma firing_segment_saturates_witness :
  exists e : float,
    Float64.estimate (Float64.firing_above (- (25 * Float64.mV))) 10 42 = Some e
    /\ e = Float64.down 10
    /\ (- (25 * Float64.mV) <? e) = true
    /\ Float64.near e (- (25 * Float64.mV) + 2 * Float64.step_at 10) = true.
Proof.
  apply (firing_segment_saturates
           (Float64.firing_above (- (25 * Float64.mV))) 42 10); [lia | lia |].
  intros x Hx. unfold Float64.firing_above. rewrite Hx. lia.
Defined.

End Float64Spec.
